(** * The search tool's query compiler (smart_search.ts)

    A shallow embedding of [convertQueryToDomain], of its recursive variant
    [convertComplexQueryToDomain] and of the two public entry points of
    src/app/utils/tools/odoo/crud_operations/smart_search.ts, followed by the
    properties the specification states about them.

    The compilers are typed [any] in the source: they read properties off
    whatever value they are handed.  The embedding therefore works on
    JSON-like JavaScript values, with property reads that answer [Undefined]
    for a missing key and that throw on [undefined] and [null]. *)

From Stdlib Require Import List String Ascii ZArith Lia Bool Arith DecimalString.
Import ListNotations.
Local Open Scope string_scope.
Local Open Scope list_scope.
Set Warnings "-register-all".

(** ** JavaScript values and completions *)

Module Js.

(** The values a parsed JSON document can hold, plus [undefined].  Numbers
    are integers: the compilers only ever compare a length with 0 and 1 and
    otherwise pass numbers through untouched.  Strings are sequences of
    one-unit characters, so that [length] counts them. *)
Inductive value : Type :=
| Undefined
| Null
| Bool (b : bool)
| Num (n : Z)
| Str (s : string)
| Arr (elems : list value)
| Obj (props : list (string * value)).

(** What a call can throw. [TypeError] is a property read on [undefined] or
    [null], or a call of something that is not a function; [RangeError] is
    the engine giving up on a recursion that is too deep. *)
Inductive exn : Type :=
| TypeError
| RangeError.

Inductive completion (A : Type) : Type :=
| Normal (a : A)
| Throw (e : exn).
Arguments Normal {A} a.
Arguments Throw {A} e.

Definition bind {A B : Type} (c : completion A) (k : A -> completion B)
  : completion B :=
  match c with
  | Normal a => k a
  | Throw e => Throw e
  end.

(** Own property of an object written as a list of bindings: as in an object
    literal and in [JSON.parse], a later binding of a key overrides an
    earlier one. *)
Fixpoint own (k : string) (props : list (string * value)) : option value :=
  match props with
  | [] => None
  | (k', v) :: rest =>
      match own k rest with
      | Some later => Some later
      | None => if String.eqb k k' then Some v else None
      end
  end.

Definition lookup (k : string) (props : list (string * value)) : value :=
  match own k props with
  | Some v => v
  | None => Undefined
  end.

(** [o.k] for a named property [k]. *)
Definition get (o : value) (k : string) : completion value :=
  match o with
  | Undefined | Null => Throw TypeError
  | Bool _ | Num _ => Normal Undefined
  | Str s =>
      Normal (if String.eqb k "length"
              then Num (Z.of_nat (String.length s)) else Undefined)
  | Arr elems =>
      Normal (if String.eqb k "length"
              then Num (Z.of_nat (List.length elems)) else Undefined)
  | Obj props => Normal (lookup k props)
  end.

(** [o[i]] for an index [i]. *)
Definition get_index (o : value) (i : nat) : completion value :=
  match o with
  | Undefined | Null => Throw TypeError
  | Bool _ | Num _ => Normal Undefined
  | Str s =>
      Normal (match String.get i s with
              | Some c => Str (String c EmptyString)
              | None => Undefined
              end)
  | Arr elems => Normal (nth i elems Undefined)
  | Obj props => Normal (lookup (NilEmpty.string_of_uint (Nat.to_uint i)) props)
  end.

(** ToBoolean, as [!x] and [||] use it. *)
Definition truthy (v : value) : bool :=
  match v with
  | Undefined | Null => false
  | Bool b => b
  | Num n => negb (Z.eqb n 0)
  | Str s => negb (String.eqb s "")
  | Arr _ | Obj _ => true
  end.

(** [v === n] for a number literal, [v === s] for a string literal and
    [v !== undefined]. *)
Definition is_num (v : value) (n : Z) : bool :=
  match v with Num m => Z.eqb m n | _ => false end.

Definition is_str (v : value) (s : string) : bool :=
  match v with Str t => String.eqb t s | _ => false end.

Definition is_undefined (v : value) : bool :=
  match v with Undefined => true | _ => false end.

(** [arr.forEach(f)] where [f] updates a local accumulator: only arrays
    have the method, and an exception in [f] leaves the loop. *)
Fixpoint each {S : Type} (f : S -> value -> completion S)
    (elems : list value) (s : S) : completion S :=
  match elems with
  | [] => Normal s
  | x :: rest => bind (f s x) (each f rest)
  end.

Definition forEach {S : Type} (arr : value)
    (f : S -> value -> completion S) (s : S) : completion S :=
  match arr with
  | Arr elems => each f elems s
  | _ => Throw TypeError
  end.

(** Size of a value: scalars weigh nothing, so whatever is read out of an
    object or an array is strictly smaller than it. *)
Fixpoint size (v : value) : nat :=
  match v with
  | Arr elems => S (list_sum (map size elems))
  | Obj props =>
      S (list_sum (map (fun p => match p with (_, x) => size x end) props))
  | _ => 0
  end.

End Js.

Import Js.

Declare Scope js_scope.
Delimit Scope js_scope with js.
Notation "x <- c ;; k" := (bind c (fun x => k))
  (at level 61, c at next level, right associativity) : js_scope.
Local Open Scope js_scope.

(** ** The production compiler *)

(** The number of rounds of
    [for (let i = 0; i < conditions.length - 1; i++)].  A length that is not
    a number only occurs when [conditions] is not an array, and then the
    [forEach] after the loop throws whatever the loop pushed. *)
Definition rounds (len : value) : nat :=
  match len with
  | Num n => Z.to_nat (n - 1)
  | _ => 0
  end.

(** [[condition.field, condition.operator, condition.value]] *)
Definition tuple (condition : value) : completion value :=
  f <- get condition "field" ;;
  o <- get condition "operator" ;;
  v <- get condition "value" ;;
  Normal (Arr [f; o; v]).

(** The markers pushed before the operands (lines 331-339). *)
Definition markers (logic len : value) : list value :=
  if is_str logic "OR" then repeat (Str "|") (rounds len)
  else if is_str logic "NOT" then [Str "!"]
  else [].

(** [conditions.forEach((condition) => domain.push([...]))] *)
Definition push_conditions (conditions : value) (domain : list value)
  : completion (list value) :=
  forEach conditions
    (fun domain condition => t <- tuple condition ;; Normal (domain ++ [t]))
    domain.

Definition convertQueryToDomain (query : value) : completion (list value) :=
  logic <- get query "logic" ;;
  conditions <- get query "conditions" ;;
  (* Handle empty conditions *)
  if negb (truthy conditions) then Normal [] else
  len <- get conditions "length" ;;
  if is_num len 0 then Normal [] else
  (* Simple case: single condition *)
  if is_num len 1 then
    condition <- get_index conditions 0 ;;
    t <- tuple condition ;;
    Normal [t]
  else
    (* Multiple conditions with logical operators *)
    let domain := [] in
    let domain := domain ++ markers logic len in
    push_conditions conditions domain.

(** ** The recursive compiler

    One call of [convertComplexQueryToDomain], with the recursive calls
    handed in as [self]. *)
Definition convertComplex_step (self : value -> completion (list value))
    (queryGroup : value) : completion (list value) :=
  logic <- get queryGroup "logic" ;;
  conditions <- get queryGroup "conditions" ;;
  (* Handle empty conditions *)
  if negb (truthy conditions) then Normal [] else
  len <- get conditions "length" ;;
  if is_num len 0 then Normal [] else
  (* Initialize domain *)
  let domain := [] in
  (* Determine if this is a simple condition or a nested group *)
  first <- get_index conditions 0 ;;
  first_field <- get first "field" ;;
  let isSimpleCondition := negb (is_undefined first_field) in
  if isSimpleCondition then
    if is_num len 1 then
      (* Single condition *)
      condition <- get_index conditions 0 ;;
      t <- tuple condition ;;
      Normal [t]
    else
      (* Multiple simple conditions *)
      let domain := domain ++ markers logic len in
      push_conditions conditions domain
  else
    if is_num len 1 then
      (* Single nested group *)
      group <- get_index conditions 0 ;;
      self group
    else
      (* Multiple nested groups *)
      let domain := domain ++ markers logic len in
      forEach conditions
        (fun domain group =>
           groupDomain <- self group ;;
           Normal (domain ++ groupDomain))
        domain.

(** The recursion unrolled [fuel] times; at depth 0 the engine's stack is
    taken to be exhausted. *)
Fixpoint convertComplex_fuel (fuel : nat) (queryGroup : value)
  : completion (list value) :=
  match fuel with
  | O => Throw RangeError
  | S fuel' => convertComplex_step (convertComplex_fuel fuel') queryGroup
  end.

(** Every recursive call is on a value read out of [queryGroup], so
    [size queryGroup] unrollings are never used up:
    [convertComplexQueryToDomain_unfold] below shows that this function
    satisfies the recursive equation of the source. *)
Definition convertComplexQueryToDomain (queryGroup : value)
  : completion (list value) :=
  convertComplex_fuel (S (size queryGroup)) queryGroup.

(** ** Tokens of a filter expression *)

Definition is_tuple (t : value) : bool :=
  match t with
  | Arr [_; _; _] => true
  | _ => false
  end.

Definition is_token (t : value) : bool :=
  is_str t "|" || is_str t "!" || is_tuple t.

(** [o.k] where the read cannot throw, and [undefined] otherwise. *)
Definition prop (o : value) (k : string) : value :=
  match get o k with
  | Normal v => v
  | Throw _ => Undefined
  end.

(** The 3-tuple of a condition, [undefined] standing for what it lacks. *)
Definition triple (condition : value) : value :=
  Arr [prop condition "field"; prop condition "operator";
       prop condition "value"].

Definition is_marker (t : value) : bool :=
  is_str t "|" || is_str t "!".

Definition is_object (v : value) : bool :=
  match v with
  | Obj _ => true
  | _ => false
  end.

(** The object carries no key [k]. *)
Definition lacks (k : string) (o : value) : bool :=
  match o with
  | Obj props => negb (existsb (String.eqb k) (map fst props))
  | _ => true
  end.

(** An element one can read properties from. *)
Definition readable (v : value) : bool :=
  match v with
  | Undefined | Null => false
  | _ => true
  end.

(** A leaf of the query language: an object with a [field] key holding a
    string (section 3 of the specification). [operator] and [value] are not
    looked at here, so that leaves missing them are covered too. *)
Definition is_leaf (c : value) : bool :=
  match c with
  | Obj props => match lookup "field" props with Str _ => true | _ => false end
  | _ => false
  end.

(** A nested group as the recursive compiler recognises it: an object
    without a [field] key. *)
Definition is_nested (g : value) : bool :=
  match g with
  | Obj props => is_undefined (lookup "field" props)
  | _ => false
  end.

(** Well-shaped query groups: [logic] is one of the three operators and
    [conditions] is a non-empty array of leaves or of well-shaped groups. *)
Inductive QueryGroup : value -> Prop :=
| QG_leaves props conds :
    (is_str (lookup "logic" props) "AND" || is_str (lookup "logic" props) "OR"
     || is_str (lookup "logic" props) "NOT") = true ->
    lookup "field" props = Undefined ->
    lookup "conditions" props = Arr conds ->
    conds <> [] ->
    forallb is_leaf conds = true ->
    QueryGroup (Obj props)
| QG_groups props conds :
    (is_str (lookup "logic" props) "AND" || is_str (lookup "logic" props) "OR"
     || is_str (lookup "logic" props) "NOT") = true ->
    lookup "field" props = Undefined ->
    lookup "conditions" props = Arr conds ->
    conds <> [] ->
    Forall QueryGroup conds ->
    QueryGroup (Obj props).

(** ** The two public entry points

    [smart_search.execute] and [smartSearch] run the same steps and differ in
    how they wrap the object they answer.  The remote client and the engine's
    wording of its own errors are parameters; the log records, in order, each
    call of the compiler and each remote call.  Console output is left out. *)

Record connection : Type := {
  url : string;
  db : string;
  uid : Z;
  password : string
}.

Record tool_input : Type := {
  input_connection : connection;
  model : string;
  query : value;
  fields_to_return : option (list string);
  limit : Z;
  offset : Z;
  count_only : bool
}.

(** The argument lists handed to [client.call(url, 'object', 'execute', ...)]. *)
Inductive request : Type :=
| search_count (c : connection) (model : string) (domain : list value)
| search_read (c : connection) (model : string) (domain : list value)
    (fields : list string) (offset limit : Z).

Definition request_domain (r : request) : list value :=
  match r with
  | search_count _ _ domain => domain
  | search_read _ _ domain _ _ _ => domain
  end.

Inductive event : Type :=
| Compiled (query : value)
| Called (r : request).

(** What reaches the [catch]: an exception of the engine, or whatever the
    client threw ([Some m] for an [Error] with message [m]). *)
Inductive failure : Type :=
| Engine (e : exn)
| Remote (message : option string).

Inductive reply (A : Type) : Type :=
| Answer (a : A)
| Fails (message : option string).
Arguments Answer {A} a.
Arguments Fails {A} message.

(** The three shapes of the answered object. *)
Inductive payload : Type :=
| Rejected (error : string)
| Failed (error : string) (model : string) (query : value)
| Found (records : list value) (count total_count : Z) (model : string)
    (query : value) (domain : list value) (offset limit : Z) (has_more : bool).

Record content_item : Type := { type : string; text : string }.
Record ToolReturn : Type := { content : list content_item }.

Definition no_conditions : string :=
  "No conditions provided. Please specify at least one condition.".

(** Steps of a handler: they extend the log and end normally or not. *)
Definition step (A : Type) : Type := list event -> list event * (A + failure).

Definition done {A : Type} (a : A) : step A := fun log => (log, inl a).

Definition and_then {A B : Type} (m : step A) (k : A -> step B) : step B :=
  fun log =>
    match m log with
    | (log', inl a) => k a log'
    | (log', inr f) => (log', inr f)
    end.

Definition engine {A : Type} (c : completion A) : step A :=
  fun log =>
    match c with
    | Normal a => (log, inl a)
    | Throw e => (log, inr (Engine e))
    end.

Definition try_catch {A : Type} (m : step A) (handler : failure -> A)
  : list event * A :=
  match m [] with
  | (log, inl a) => (log, a)
  | (log, inr f) => (log, handler f)
  end.

Notation "x <~ c ;; k" := (and_then c (fun x => k))
  (at level 61, c at next level, right associativity) : js_scope.

(** [!query || !query.conditions || query.conditions.length === 0] *)
Definition nothing_to_search (query : value) : completion bool :=
  if negb (truthy query) then Normal true else
  conditions <- get query "conditions" ;;
  if negb (truthy conditions) then Normal true else
  len <- get conditions "length" ;;
  Normal (is_num len 0).

Section Handlers.

(** [error.message] of an exception raised by the engine itself. *)
Variable engine_message : exn -> string.
(** The remote end: [search_count] answers a number, [search_read] a list
    of records or nothing. *)
Variable count_reply : request -> reply Z.
Variable read_reply : request -> reply (option (list value)).
Variable JSON_stringify : payload -> string.

Definition errorMessage (f : failure) : string :=
  match f with
  | Engine e => engine_message e
  | Remote (Some message) => message
  | Remote None => "Unknown error"
  end.

Definition compile (query : value) : step (list value) :=
  fun log => engine (convertQueryToDomain query) (log ++ [Compiled query]).

Definition call {A : Type} (remote : request -> reply A) (r : request)
  : step A :=
  fun log =>
    match remote r with
    | Answer a => (log ++ [Called r], inl a)
    | Fails message => (log ++ [Called r], inr (Remote message))
    end.

Definition search {R : Type} (wrap : payload -> R) (input : tool_input)
  : list event * R :=
  let connection := input_connection input in
  let model := model input in
  let query := query input in
  let limit := limit input in
  let offset := offset input in
  try_catch
    ((* Validate the query *)
     invalid <~ engine (nothing_to_search query) ;;
     if (invalid : bool) then done (wrap (Rejected no_conditions)) else
     (* Convert the query structure to an Odoo domain *)
     domain <~ compile query ;;
     (* Get total count first (for pagination info) *)
     totalCount <~ call count_reply (search_count connection model domain) ;;
     if count_only input then
       done (wrap (Found [] 0 totalCount model query domain offset limit
                     false))
     else
       (* Execute search with specified fields *)
       let fieldsToReturn :=
         match fields_to_return input with Some l => l | None => [] end in
       records <~ call read_reply
         (search_read connection model domain fieldsToReturn offset limit) ;;
       let found := match records with Some l => l | None => [] end in
       let count := Z.of_nat (List.length found) in
       (* Determine if there are more records beyond this page *)
       let hasMore := Z.ltb (offset + count) totalCount in
       done (wrap (Found found count totalCount model query domain offset
                     limit hasMore)))
    (fun error => wrap (Failed (errorMessage error) model query)).

(** [smart_search.execute] answers the object itself. *)
Definition smart_search_execute (input : tool_input) : list event * payload :=
  search (fun p => p) input.

(** [smartSearch] answers it serialised in one text item. *)
Definition smartSearch (input : tool_input) : list event * ToolReturn :=
  search
    (fun p => {| content := [{| type := "text"; text := JSON_stringify p |}] |})
    input.

End Handlers.

(** Object literals as the tools' callers write them. *)
Definition condition_lit (field operator : string) (v : value) : value :=
  Obj [("field", Str field); ("operator", Str operator); ("value", v)].

Definition group_lit (logic : string) (conditions : list value) : value :=
  Obj [("logic", Str logic); ("conditions", Arr conditions)].

(** Sample conditions, groups and inputs. *)
Definition email_unset : value := condition_lit "email" "=" (Bool false).
Definition in_qatar : value := condition_lit "country_id" "=" (Num 186).
Definition in_canada : value := condition_lit "country_id" "=" (Num 38).
Definition is_active : value := condition_lit "active" "=" (Bool true).

Definition no_field : value := Obj [("operator", Str "="); ("value", Num 7)].
Definition no_value : value := Obj [("field", Str "name"); ("operator", Str "=")].

Definition active_in_qatar : value := group_lit "AND" [is_active; in_qatar].
Definition reachable_elsewhere : value :=
  group_lit "NOT" [email_unset; in_qatar].

Definition some_connection : connection :=
  {| url := "https://erp.example.com"; db := "prod"; uid := 2;
     password := "secret" |}.

Definition search_partners (q : value) : tool_input :=
  {| input_connection := some_connection; model := "res.partner"; query := q;
     fields_to_return := None; limit := 20; offset := 0;
     count_only := false |}.

(** A remote end with three partners on file, for running the entry
    points. *)
Definition three_partners_count (r : request) : reply Z := Answer 3%Z.
Definition three_partners_read (r : request) : reply (option (list value)) :=
  Answer (Some [Obj [("id", Num 1)]; Obj [("id", Num 2)]; Obj [("id", Num 3)]]).
Definition v8_message (e : exn) : string :=
  match e with
  | TypeError => "Cannot read properties of undefined"
  | RangeError => "Maximum call stack size exceeded"
  end.
Definition tag_only (p : payload) : string :=
  match p with
  | Rejected _ => "rejected"
  | Failed _ _ _ => "failed"
  | Found _ _ _ _ _ _ _ _ _ => "found"
  end.

(** More samples: a group whose logic is not spelled as the compilers expect,
    one without logic, and inputs for the count-only and failing runs. *)
Definition lower_case_or : value :=
  Obj [("logic", Str "or"); ("conditions", Arr [in_qatar; in_canada])].
Definition no_logic : value :=
  Obj [("conditions", Arr [in_qatar; in_canada])].
Definition count_partners (q : value) : tool_input :=
  {| input_connection := some_connection; model := "res.partner"; query := q;
     fields_to_return := None; limit := 20; offset := 0;
     count_only := true |}.
Definition unreachable_count (r : request) : reply Z :=
  Fails (Some "JSON-RPC call failed: connect ECONNREFUSED").

Definition wrapped_group : value := group_lit "NOT" [active_in_qatar].
Definition group_then_leaves : value :=
  group_lit "OR" [active_in_qatar; in_canada; email_unset].

(** The one-item answer of the MCP callbacks. *)
Definition as_text (JSON_stringify : payload -> string) (p : payload)
  : ToolReturn :=
  {| content := [{| type := "text"; text := JSON_stringify p |}] |}.

(** The logs a search can leave: nothing, the compilation alone, or the
    compilation followed by the count and then, possibly, the read, both on
    the compiled domain. *)
Definition search_log (input : tool_input) (log : list event) : Prop :=
  let c := input_connection input in
  let fields := match fields_to_return input with Some l => l | None => [] end in
  log = []
  \/ log = [Compiled (query input)]
  \/ exists d,
       convertQueryToDomain (query input) = Normal d
       /\ (log = [Compiled (query input);
                  Called (search_count c (model input) d)]
           \/ log = [Compiled (query input);
                     Called (search_count c (model input) d);
                     Called (search_read c (model input) d fields
                               (offset input) (limit input))]).

Definition is_read (e : event) : bool :=
  match e with
  | Called (search_read _ _ _ _ _ _) => true
  | _ => false
  end.

(** ** The JSON-RPC client and the connection tool (establish_connection.ts) *)

(** [url.replace(/\/+$/, '')]: the run of slashes that ends the string, if
    there is one, is removed. *)
Fixpoint strip_trailing_slashes (url : string) : string :=
  match url with
  | EmptyString => EmptyString
  | String c rest =>
      match strip_trailing_slashes rest with
      | EmptyString => if Ascii.eqb c "/" then EmptyString
                       else String c EmptyString
      | stripped => String c stripped
      end
  end.

(** [n] slashes. *)
Fixpoint slashes (n : nat) : string :=
  match n with
  | O => EmptyString
  | S n' => String "/" (slashes n')
  end.

(** [typeof v === 'number'] *)
Definition is_number (v : value) : bool :=
  match v with
  | Num _ => true
  | _ => false
  end.

(** One call of [OdooJsonRpcClient.call], as the connection tool logs it. *)
Inductive rpc : Type :=
| Rpc (url service method : string) (args : list value).

(** A connection as the connection tool answers it. *)
Record OdooConnection : Type := {
  oc_url : string;
  oc_db : string;
  oc_uid : Z;
  oc_password : string;
  oc_context : value
}.

Inductive connect_result : Type :=
| Connected (connection : OdooConnection) (serverInfo : value)
| NotConnected (error : string).

Record credentials : Type := {
  cr_url : string;
  cr_db : string;
  cr_username : string;
  cr_password : string
}.

Section Client.

(** [error.message] of an exception raised by the engine itself, [String(v)]
    as template literals apply it, and the message of the error that
    [new URL(endpoint)] throws on an endpoint it cannot parse. *)
Variable engine_message : exn -> string.
Variable to_string : value -> string.
Variable invalid_url_message : string.
(** Whether [new URL(endpoint)] accepts the endpoint, and what jayson's
    [client.request('call', {service, method, args})] does at an endpoint. *)
Variable well_formed_url : string -> bool.
Variable request : string -> string -> string -> list value -> reply value.

(** The body of the [try] in [call]. *)
Definition call_attempt (endpoint service method : string) (args : list value)
  : reply value :=
  match request endpoint service method args with
  | Fails message => Fails message
  | Answer response =>
      match get response "error" with
      | Throw e => Fails (Some (engine_message e))
      | Normal error =>
          if truthy error then
            Fails (Some ("Odoo Error " ++ to_string (prop error "code") ++ ": "
                           ++ to_string (prop error "message"))%string)
          else Answer (prop response "result")
      end
  end.

Definition OdooJsonRpcClient_call (url service method : string)
    (args : list value) : reply value :=
  let endpoint := (strip_trailing_slashes url ++ "/jsonrpc")%string in
  (* createClient runs before the try *)
  if negb (well_formed_url endpoint) then Fails (Some invalid_url_message) else
  match call_attempt endpoint service method args with
  | Answer result => Answer result
  | Fails (Some message) =>
      Fails (Some ("JSON-RPC call failed: " ++ message)%string)
  | Fails None => Fails (Some "JSON-RPC call failed: Unknown error")
  end.

Definition authenticate_args (db username password : string) : list value :=
  [Str db; Str username; Str password; Obj []].

Definition authenticate (url db username password : string) : reply Z :=
  match OdooJsonRpcClient_call url "common" "authenticate"
          (authenticate_args db username password) with
  | Fails message => Fails message
  | Answer result =>
      if negb (truthy result) || negb (is_number result) then
        Fails (Some "Authentication failed: Invalid credentials or server response")
      else
        match result with
        | Num uid => Answer uid
        | _ => Fails (Some "Authentication failed: Invalid credentials or server response")
        end
  end.

Definition getServerVersion (url : string) : reply value :=
  OdooJsonRpcClient_call url "common" "version" [].

Definition checkUserAccess_args (db : string) (uid : Z) (password : string)
  : list value :=
  [Str db; Num uid; Str password; Str "res.users"; Str "read"; Arr [Num uid];
   Arr [Str "id"; Str "name"; Str "login"]].

Definition checkUserAccess (url db : string) (uid : Z) (password : string)
  : bool :=
  match OdooJsonRpcClient_call url "object" "execute"
          (checkUserAccess_args db uid password) with
  | Fails _ => false
  | Answer result =>
      match result with
      | Arr elems =>
          Nat.ltb 0 (List.length elems)
          && match get (nth 0 elems Undefined) "id" with
             | Normal id => is_num id uid
             | Throw _ => false
             end
      | _ => false
      end
  end.

(** [establish_odoo_connection.execute] and [connectToOdoo]: the same three
    steps, wrapped differently. *)
Definition establish {R : Type} (wrap : connect_result -> R)
    (input : credentials) : list rpc * R :=
  let url := cr_url input in
  let db := cr_db input in
  let username := cr_username input in
  let password := cr_password input in
  let failed (message : option string) :=
    wrap (NotConnected match message with
                       | Some m => m
                       | None => "Unknown error occurred"
                       end) in
  let version := Rpc url "common" "version" [] in
  let login := Rpc url "common" "authenticate"
                 (authenticate_args db username password) in
  (* Step 1: Get server version info *)
  match getServerVersion url with
  | Fails message => ([version], failed message)
  | Answer serverInfo =>
      (* Step 2: Authenticate user *)
      match authenticate url db username password with
      | Fails message => ([version; login], failed message)
      | Answer uid =>
          (* Step 3: Verify the connection by checking user access *)
          let check := Rpc url "object" "execute"
                         (checkUserAccess_args db uid password) in
          if negb (checkUserAccess url db uid password) then
            ([version; login; check],
             failed (Some "Connection verification failed"))
          else
            (* Step 4: Create connection object *)
            let connection :=
              {| oc_url := strip_trailing_slashes url; oc_db := db;
                 oc_uid := uid; oc_password := password;
                 oc_context := Obj [("lang", Str "en_US"); ("tz", Str "UTC")] |} in
            ([version; login; check], wrap (Connected connection serverInfo))
      end
  end.


(** [connectToOdoo] answers the same object serialised in one text item. *)
Variable stringify_result : connect_result -> string.

Definition connectToOdoo (input : credentials) : list rpc * ToolReturn :=
  establish
    (fun r => {| content := [{| type := "text"; text := stringify_result r |}] |})
    input.

End Client.


(** A server that answers every call with an access error. *)
Definition refusing_request (endpoint service method : string)
    (args : list value) : reply value :=
  Answer (Obj [("error", Obj [("code", Num 200);
                              ("message", Str "Access Denied")])]).

Definition show_demo (v : value) : string :=
  match v with
  | Str s => s
  | Num 200 => "200"
  | _ => "?"
  end.

Definition any_url (endpoint : string) : bool := true.


(** ** The update and delete tools (update_record.ts, delete_record.ts)

    Both hand [client.call] an argument list that starts with the
    connection's database, user and password, then the model and the method;
    what follows is kept in [args].  The answers are JavaScript objects.  A
    call that writes or unlinks answers any value; a call that reads answers
    a list of records or nothing. *)

Inductive odoo_call : Type :=
| Execute (c : connection) (model method : string) (args : list value).

Definition method_of (call : odoo_call) : string :=
  match call with
  | Execute _ _ method _ => method
  end.

(** [s.includes(sub)] *)
Fixpoint includes (s sub : string) : bool :=
  String.prefix sub s
  || match s with
     | EmptyString => false
     | String _ rest => includes rest sub
     end.

(** The keys of an object in insertion order, each once. *)
Fixpoint keys_from (props : list (string * value)) (seen : list string)
  : list string :=
  match props with
  | [] => []
  | (k, _) :: rest =>
      if existsb (String.eqb k) seen then keys_from rest seen
      else k :: keys_from rest (k :: seen)
  end.

Definition index_key (i : nat) : string :=
  NilEmpty.string_of_uint (Nat.to_uint i).

(** [Object.keys(o)] for an [o] that is neither [undefined] nor [null]; the
    keys of an object are taken to be field names, which the engine lists in
    insertion order. *)
Definition Object_keys (o : value) : list string :=
  match o with
  | Obj props => keys_from props []
  | Arr elems => map index_key (seq 0 (List.length elems))
  | Str s => map index_key (seq 0 (String.length s))
  | _ => []
  end.

(** [v === true] *)
Definition is_true (v : value) : bool :=
  match v with
  | Bool true => true
  | _ => false
  end.

Definition double_quote : string := String (Ascii.ascii_of_nat 34) EmptyString.

Record update_input : Type := {
  up_connection : connection;
  up_model : string;
  up_record_id : Z;
  up_updates : value
}.

Record delete_input : Type := {
  del_connection : connection;
  del_model : string;
  del_record_id : Z;
  del_confirmation : bool
}.

(** [error instanceof Error ? error.message : 'Unknown error'] *)
Definition message_of (thrown : option string) : string :=
  match thrown with
  | Some message => message
  | None => "Unknown error"
  end.

Definition failure_object (error message : string)
    (more : list (string * value)) : value :=
  Obj ([("success", Bool false); ("error", Str error);
        ("message", Str message)] ++ more).


Section Record_tools.

(** [String(n)] as template literals apply it to a record id. *)
Variable show_number : Z -> string.
Variable remote_value : odoo_call -> reply value.
Variable remote_records : odoo_call -> reply (option (list value)).
Variable JSON_stringify_value : value -> string.

(** The [catch] of the update tool. *)
Definition update_failure (record_id : Z) (model errorMessage : string)
  : value :=
  if includes errorMessage "does not exist"
     || includes errorMessage "not found" then
    failure_object "RECORD_NOT_FOUND"
      ("Record with ID " ++ show_number record_id
         ++ " does not exist in model " ++ model ++ ".")%string
      [("suggestion",
        Str "Use smart_search to find the correct record ID, or verify the record hasn't been deleted.")]
  else if includes errorMessage "relation"
          || includes errorMessage "foreign key" then
    failure_object "INVALID_RELATION"
      "One or more relational field values are invalid."
      [("suggestion",
        Str "For relational fields (ending in '_id'), use smart_search to find the correct numeric IDs for related records.")]
  else if includes errorMessage "access"
          || includes errorMessage "permission"
          || includes errorMessage "denied" then
    failure_object "ACCESS_DENIED"
      "You don't have permission to update this record or these fields."
      [("suggestion",
        Str "Check your user permissions for this model and record.")]
  else if includes errorMessage "readonly"
          || includes errorMessage "read-only" then
    failure_object "READONLY_FIELD"
      "One or more fields you're trying to update are read-only."
      [("suggestion",
        Str "Use get_model_fields to check which fields can be updated for this model.")]
  else if includes errorMessage "required"
          || includes errorMessage "mandatory" then
    failure_object "MISSING_REQUIRED_FIELD"
      "A required field is missing or being set to an invalid value."
      [("suggestion",
        Str "Use get_model_fields to see which fields are required for this model.")]
  else
    (* Generic error fallback *)
    failure_object "UPDATE_FAILED"
      ("Update failed: " ++ errorMessage)%string
      [("suggestion",
        Str "Check the field names, values, and data types. Use get_model_fields for field information.")].

Definition no_updates_object : value :=
  Obj [("success", Bool false); ("error", Str "NO_UPDATES_SPECIFIED");
       ("message",
        Str "No field updates provided. Please specify which fields to update and their new values.");
       ("example",
        Str ("updates: {" ++ double_quote ++ "field_name" ++ double_quote
               ++ ": " ++ double_quote ++ "new_value" ++ double_quote ++ ", "
               ++ double_quote ++ "another_field" ++ double_quote ++ ": "
               ++ double_quote ++ "another_value" ++ double_quote ++ "}")%string)].

Definition update {R : Type} (wrap : value -> R) (input : update_input)
  : list odoo_call * R :=
  let connection := up_connection input in
  let model := up_model input in
  let record_id := up_record_id input in
  let updates := up_updates input in
  (* Validate that we have actual updates to apply *)
  if negb (truthy updates)
     || Nat.eqb (List.length (Object_keys updates)) 0 then
    ([], wrap no_updates_object)
  else
    (* Step 1: Update the record using Odoo's write method *)
    let write :=
      Execute connection model "write" [Arr [Num record_id]; updates] in
    match remote_value write with
    | Fails thrown =>
        ([write], wrap (update_failure record_id model (message_of thrown)))
    | Answer writeResult =>
        if is_true writeResult then
          (* Step 2: Read back the updated fields plus ID *)
          let fieldsToRead := "id" :: Object_keys updates in
          let read :=
            Execute connection model "read"
              [Arr [Num record_id]; Arr (map Str fieldsToRead)] in
          match remote_records read with
          | Fails thrown =>
              ([write; read],
               wrap (update_failure record_id model (message_of thrown)))
          | Answer (Some (first :: _)) =>
              ([write; read],
               wrap (Obj [("success", Bool true); ("model", Str model);
                          ("updated_record", first)]))
          | Answer _ =>
              ([write; read],
               wrap (failure_object "READ_FAILED"
                       ("Update succeeded but could not retrieve the updated record with ID "
                          ++ show_number record_id
                          ++ ". The record may have been updated successfully.")%string
                       []))
          end
        else
          ([write],
           wrap (failure_object "WRITE_FAILED"
                   ("Odoo write operation failed for record ID "
                      ++ show_number record_id
                      ++ ". Please check if the record exists and you have write permissions.")%string
                   []))
    end.

Definition as_text_value (v : value) : ToolReturn :=
  {| content := [{| type := "text"; text := JSON_stringify_value v |}] |}.

Definition update_record_execute (input : update_input)
  : list odoo_call * value :=
  update (fun v => v) input.

Definition updateRecord (input : update_input) : list odoo_call * ToolReturn :=
  update as_text_value input.

(** The [catch] of the delete tool. *)
Definition delete_failure (record_id : Z) (model errorMessage : string)
  : value :=
  if includes errorMessage "does not exist"
     || includes errorMessage "not found" then
    failure_object "RECORD_NOT_FOUND"
      ("Record with ID " ++ show_number record_id
         ++ " does not exist in model " ++ model ++ ".")%string
      [("suggestion",
        Str "Use smart_search to find the correct record ID, or verify the record hasn't already been deleted.")]
  else if includes errorMessage "access"
          || includes errorMessage "permission"
          || includes errorMessage "denied" then
    failure_object "ACCESS_DENIED"
      "You don't have permission to delete this record."
      [("suggestion",
        Str "Check your user permissions for deleting records in this model.")]
  else if includes errorMessage "constraint"
          || includes errorMessage "foreign key"
          || includes errorMessage "reference" then
    failure_object "DELETION_BLOCKED"
      "Cannot delete this record because other records depend on it."
      [("suggestion",
        Str "You may need to delete or modify related records first, or check if this record is referenced elsewhere.")]
  else if includes errorMessage "workflow"
          || includes errorMessage "state" then
    failure_object "WORKFLOW_RESTRICTION"
      "Cannot delete this record due to its current state or workflow status."
      [("suggestion",
        Str "The record may need to be cancelled or moved to a different state before it can be deleted.")]
  else
    (* Generic error fallback *)
    failure_object "DELETION_FAILED"
      ("Deletion failed: " ++ errorMessage)%string
      [("suggestion",
        Str "Check if the record exists and you have the necessary permissions to delete it.")].

Definition delete {R : Type} (wrap : value -> R) (input : delete_input)
  : list odoo_call * R :=
  let connection := del_connection input in
  let model := del_model input in
  let record_id := del_record_id input in
  (* Safety check: Require explicit confirmation *)
  if negb (del_confirmation input) then
    ([],
     wrap (failure_object "CONFIRMATION_REQUIRED"
             ("Deletion requires explicit user confirmation. Please confirm that you want to permanently delete record ID "
                ++ show_number record_id ++ " from " ++ model ++ ".")%string
             [("suggestion",
               Str "Ask the user to explicitly confirm deletion intent, then set confirmation: true")]))
  else
    (* Step 1: First, try to read the record to confirm it exists *)
    let read :=
      Execute connection model "read"
        [Arr [Num record_id];
         Arr [Str "id"; Str "name"; Str "display_name"]] in
    let recordDetails :=
      match remote_records read with
      | Answer (Some (first :: _)) => first
      | _ => Null
      end in
    (* Step 2: Delete the record using Odoo's unlink method *)
    let unlink := Execute connection model "unlink" [Arr [Num record_id]] in
    match remote_value unlink with
    | Fails thrown =>
        ([read; unlink],
         wrap (delete_failure record_id model (message_of thrown)))
    | Answer deleteResult =>
        if is_true deleteResult then
          ([read; unlink],
           wrap (Obj [("success", Bool true); ("model", Str model);
                      ("deleted_record_id", Num record_id);
                      ("deleted_record_details", recordDetails);
                      ("message",
                       Str ("Record " ++ show_number record_id
                              ++ " has been permanently deleted from "
                              ++ model ++ ".")%string)]))
        else
          ([read; unlink],
           wrap (failure_object "DELETE_FAILED"
                   ("Odoo unlink operation failed for record ID "
                      ++ show_number record_id
                      ++ ". The record may not have been deleted.")%string
                   []))
    end.

Definition delete_record_execute (input : delete_input)
  : list odoo_call * value :=
  delete (fun v => v) input.

Definition deleteRecord (input : delete_input) : list odoo_call * ToolReturn :=
  delete as_text_value input.

End Record_tools.

(** Samples for the record tools. *)
Definition rename_partner : update_input :=
  {| up_connection := some_connection; up_model := "res.partner";
     up_record_id := 123; up_updates := Obj [("name", Str "John Updated")] |}.
Definition update_nothing : update_input :=
  {| up_connection := some_connection; up_model := "res.partner";
     up_record_id := 123; up_updates := Obj [] |}.
Definition delete_partner (confirmed : bool) : delete_input :=
  {| del_connection := some_connection; del_model := "res.partner";
     del_record_id := 123; del_confirmation := confirmed |}.
Definition show_123 (n : Z) : string := "123".
Definition always_true (call : odoo_call) : reply value := Answer (Bool true).
Definition no_records (call : odoo_call) : reply (option (list value)) :=
  Fails (Some "JSON-RPC call failed: socket hang up").
Definition value_tag (v : value) : string := "object".

(** ** Circuit breaker and retries (lib/error-handling.ts) *)

Inductive breaker_state : Type :=
| closed
| open
| half_open.

(** The fields of a [CircuitBreaker]; [threshold] and [timeout] are set by
    the constructor and never change. *)
Record CircuitBreaker : Type := {
  failures : Z;
  lastFailureTime : Z;
  state : breaker_state;
  threshold : Z;
  timeout : Z
}.

Definition new_CircuitBreaker (threshold timeout : Z) : CircuitBreaker :=
  {| failures := 0; lastFailureTime := 0; state := closed;
     threshold := threshold; timeout := timeout |}.

(** What the function handed to [execute] or [withRetry] does when awaited. *)
Inductive attempt (A E : Type) : Type :=
| Resolves (a : A)
| Rejects (e : E).
Arguments Resolves {A E} a.
Arguments Rejects {A E} e.

(** How [execute] ends: it throws CIRCUIT_BREAKER_OPEN without calling the
    function, or it calls it and passes on what it does. *)
Inductive guarded (A E : Type) : Type :=
| Unavailable
| Ran (r : attempt A E).
Arguments Unavailable {A E}.
Arguments Ran {A E} r.

Definition breaker_state_eqb (x y : breaker_state) : bool :=
  match x, y with
  | closed, closed | open, open | half_open, half_open => true
  | _, _ => false
  end.

Definition set_state (s : breaker_state) (b : CircuitBreaker) : CircuitBreaker :=
  {| failures := failures b; lastFailureTime := lastFailureTime b; state := s;
     threshold := threshold b; timeout := timeout b |}.

(** [execute(fn)]: [now] is the clock when the call starts, [later] the clock
    when [fn] has failed, and [fn] tells what the function does given that it
    is called. *)
Definition CircuitBreaker_execute {A E : Type} (b : CircuitBreaker)
    (now : Z) (fn : attempt A E) (later : Z)
  : CircuitBreaker * guarded A E :=
  let check :=
    if breaker_state_eqb (state b) open then
      if Z.ltb (timeout b) (now - lastFailureTime b) then
        Some (set_state half_open b)
      else None
    else Some b in
  match check with
  | None => (b, Unavailable)
  | Some b1 =>
      match fn with
      | Resolves a =>
          if breaker_state_eqb (state b1) half_open then
            ({| failures := 0; lastFailureTime := lastFailureTime b1;
                state := closed; threshold := threshold b1;
                timeout := timeout b1 |},
             Ran (Resolves a))
          else (b1, Ran (Resolves a))
      | Rejects e =>
          let count := (failures b1 + 1)%Z in
          ({| failures := count; lastFailureTime := later;
              state := if Z.leb (threshold b1) count then open else state b1;
              threshold := threshold b1; timeout := timeout b1 |},
           Ran (Rejects e))
      end
  end.

Definition CircuitBreaker_reset (b : CircuitBreaker) : CircuitBreaker :=
  {| failures := 0; lastFailureTime := lastFailureTime b; state := closed;
     threshold := threshold b; timeout := timeout b |}.

(** A use of a breaker: a call of [execute], with its clocks and what the
    function does, or a [reset]. *)
Inductive breaker_use (A E : Type) : Type :=
| Use (now : Z) (fn : attempt A E) (later : Z)
| Reset.
Arguments Use {A E} now fn later.
Arguments Reset {A E}.

Definition use_breaker {A E : Type} (b : CircuitBreaker) (u : breaker_use A E)
  : CircuitBreaker :=
  match u with
  | Use now fn later => fst (CircuitBreaker_execute b now fn later)
  | Reset => CircuitBreaker_reset b
  end.

Definition is_rejection {A E : Type} (u : breaker_use A E) : bool :=
  match u with
  | Use _ (Rejects _) _ => true
  | _ => false
  end.

Definition is_reset {A E : Type} (u : breaker_use A E) : bool :=
  match u with
  | Reset => true
  | _ => false
  end.

(** What holds of a breaker between two uses. *)
Definition breaker_invariant (b : CircuitBreaker) : Prop :=
  (0 <= failures b)%Z
  /\ state b <> half_open
  /\ (state b = open -> (threshold b <= failures b)%Z).

(** What [withRetry] does, in order. *)
Inductive retry_event (E : Type) : Type :=
| Tried (attempt : nat)
| Notified (attempt : nat) (error : E)
| Slept (delay : Z).
Arguments Tried {E} attempt.
Arguments Notified {E} attempt error.
Arguments Slept {E} delay.

Inductive retry_result (A E : Type) : Type :=
| Returned (a : A)
| Thrown (lastError : option E).
Arguments Returned {A E} a.
Arguments Thrown {A E} lastError.

Section Retry.

Variables A E : Type.
(** What the [attempt]-th call of [fn] does. *)
Variable fn : nat -> attempt A E.
Variable maxRetries : Z.
Variable retryDelay : Z.
Variable exponentialBackoff : bool.
(** Whether an [onRetry] callback was given. *)
Variable onRetry : bool.

(** The iterations of [for (attempt = 0; attempt <= maxRetries; attempt++)]
    that are left, from [attempt] on. *)
Fixpoint retry_loop (left : nat) (attempt : nat) (lastError : option E)
  : list (retry_event E) * retry_result A E :=
  match left with
  | O => ([], Thrown lastError)
  | S left' =>
      match fn attempt with
      | Resolves a => ([Tried attempt], Returned a)
      | Rejects error =>
          let pause :=
            if Z.ltb (Z.of_nat attempt) maxRetries then
              let delay :=
                if exponentialBackoff
                then (retryDelay * 2 ^ Z.of_nat attempt)%Z
                else retryDelay in
              (if onRetry then [Notified (attempt + 1) error] else [])
                ++ [Slept delay]
            else [] in
          let (rest, result) := retry_loop left' (S attempt) (Some error) in
          (Tried attempt :: pause ++ rest, result)
      end
  end.

Definition withRetry : list (retry_event E) * retry_result A E :=
  retry_loop (Z.to_nat (maxRetries + 1)) 0 None.

End Retry.

Arguments retry_loop {A E} fn maxRetries retryDelay exponentialBackoff onRetry left attempt lastError.
Arguments withRetry {A E} fn maxRetries retryDelay exponentialBackoff onRetry.

Definition tries {E : Type} (events : list (retry_event E)) : nat :=
  List.length (filter (fun e => match e with Tried _ => true | _ => false end)
                 events).

Fixpoint slept {E : Type} (events : list (retry_event E)) : Z :=
  match events with
  | [] => 0
  | Slept delay :: rest => (delay + slept rest)%Z
  | _ :: rest => slept rest
  end.

(** ** API key check (lib/api-auth.ts)

    [header] is what [request.headers.get('x-api-key')] answers and
    [configured] the KNOWLEDGE_API_KEY variable of the environment, [None]
    when there is none. *)
Definition validateApiKey (header configured : option string) : bool :=
  match configured with
  | None | Some EmptyString => false
  | Some validApiKey =>
      match header with
      | None | Some EmptyString => false
      | Some apiKey => String.eqb apiKey validApiKey
      end
  end.

(** Samples for the breaker and for retries. *)
Definition flaky (n : nat) : attempt string string :=
  if Nat.ltb n 2 then Rejects "timeout" else Resolves "ok".
Definition hopeless (n : nat) : attempt string string := Rejects "timeout".
Definition two_failures_apart : list (breaker_use string string) :=
  [Use 0 (Rejects "timeout") 5; Use 10 (Resolves "ok") 15;
   Use 20 (Rejects "timeout") 25].
Definition tripped : CircuitBreaker :=
  {| failures := 3; lastFailureTime := 1000; state := open; threshold := 3;
     timeout := 60000 |}.

(** ** Text chunking (src/unnamed/part_007)

    Strings are read as sequences of code units below 256; among those the
    white space of [trim] and of the regular expression class [\s] is tab,
    line feed, vertical tab, form feed, carriage return, space and the
    no-break space. *)

Definition is_space (c : ascii) : bool :=
  let n := nat_of_ascii c in
  (Nat.leb 9 n && Nat.leb n 13) || Nat.eqb n 32 || Nat.eqb n 160.

Fixpoint trimStart (s : string) : string :=
  match s with
  | EmptyString => EmptyString
  | String c rest => if is_space c then trimStart rest else s
  end.

Fixpoint trimEnd (s : string) : string :=
  match s with
  | EmptyString => EmptyString
  | String c rest =>
      match trimEnd rest with
      | EmptyString => if is_space c then EmptyString else String c EmptyString
      | trimmed => String c trimmed
      end
  end.

Definition trim (s : string) : string := trimEnd (trimStart s).

(** A string that does not start with white space. *)
Definition starts_clean (s : string) : bool :=
  match s with
  | EmptyString => true
  | String c _ => negb (is_space c)
  end.

Definition len (s : string) : Z := Z.of_nat (String.length s).

(** [s.substring(a, b)]: both indices are clamped to the string and swapped
    when out of order. *)
Definition substring (s : string) (a b : Z) : string :=
  let clamp i := Z.max 0 (Z.min i (len s)) in
  let from := Z.min (clamp a) (clamp b) in
  let to := Z.max (clamp a) (clamp b) in
  String.substring (Z.to_nat from) (Z.to_nat (to - from)) s.

(** [s.lastIndexOf(pattern)], from position [i] of the whole string on. *)
Fixpoint lastIndexOf_from (s pattern : string) (i : Z) : Z :=
  match s with
  | EmptyString => if String.prefix pattern s then i else (-1)
  | String _ rest =>
      let later := lastIndexOf_from rest pattern (i + 1) in
      if Z.leb 0 later then later
      else if String.prefix pattern s then i else (-1)
  end.

Definition lastIndexOf (s pattern : string) : Z := lastIndexOf_from s pattern 0.

Definition is_sentence_end (c : ascii) : bool :=
  Ascii.eqb c "." || Ascii.eqb c "!" || Ascii.eqb c "?".

(** [s.match(/[.!?]\s/g)]: the matches from left to right, [[]] standing for
    [null]. [skip] tells that the character at hand belongs to the match just
    taken. *)
Fixpoint sentence_ends_from (s : string) (skip : bool) : list string :=
  match s with
  | EmptyString => []
  | String c rest =>
      if skip then sentence_ends_from rest false
      else
        match rest with
        | String d _ =>
            if is_sentence_end c && is_space d
            then String c (String d EmptyString) :: sentence_ends_from rest true
            else sentence_ends_from rest false
        | EmptyString => []
        end
  end.

Definition sentence_ends (s : string) : list string :=
  sentence_ends_from s false.

Definition line_feed : string := String (Ascii.ascii_of_nat 10) EmptyString.

Record TextChunk : Type := {
  chunk_content : string;
  chunkIndex : Z;
  totalChunks : Z;
  startChar : Z;
  endChar : Z
}.

Definition set_totalChunks (n : Z) (c : TextChunk) : TextChunk :=
  {| chunk_content := chunk_content c; chunkIndex := chunkIndex c;
     totalChunks := n; startChar := startChar c; endChar := endChar c |}.

Section Chunking.

Variable cleanText : string.
Variable maxChunkSize : Z.
Variable overlapSize : Z.

(** Where the chunk that starts at [startIndex] ends (lines 57-87). *)
Definition chunk_end (startIndex : Z) : Z :=
  let endIndex := (startIndex + maxChunkSize)%Z in
  (* If this is not the last chunk, try to find a good break point *)
  if Z.ltb endIndex (len cleanText) then
    let searchStart := Z.max (startIndex + maxChunkSize - 100) startIndex in
    let searchEnd := Z.min (startIndex + maxChunkSize) (len cleanText) in
    let searchText := substring cleanText searchStart searchEnd in
    match rev (sentence_ends searchText) with
    | lastMatch :: _ =>
        (searchStart + lastIndexOf searchText lastMatch + len lastMatch)%Z
    | [] =>
        if includes searchText (line_feed ++ line_feed)%string then
          (searchStart + lastIndexOf searchText (line_feed ++ line_feed)%string
           + 2)%Z
        else if includes searchText line_feed then
          (searchStart + lastIndexOf searchText line_feed + 1)%Z
        else if includes searchText " " then
          (searchStart + lastIndexOf searchText " " + 1)%Z
        else endIndex
    end
  else len cleanText.

(** The [while] loop, [rounds] iterations of it at most; [None] when they do
    not suffice. *)
Fixpoint chunk_loop (rounds : nat) (startIndex chunkIndex : Z)
    (chunks : list TextChunk) : option (list TextChunk) :=
  match rounds with
  | O => None
  | S rounds' =>
      if Z.ltb startIndex (len cleanText) then
        let endIndex := chunk_end startIndex in
        let chunkContent := trim (substring cleanText startIndex endIndex) in
        let pushed := Z.ltb 0 (len chunkContent) in
        let chunks' :=
          if pushed then
            chunks ++ [{| chunk_content := chunkContent;
                          chunkIndex := chunkIndex; totalChunks := -1;
                          startChar := startIndex; endChar := endIndex |}]
          else chunks in
        let chunkIndex' := if pushed then (chunkIndex + 1)%Z else chunkIndex in
        (* Move to next chunk with overlap *)
        if Z.ltb endIndex (len cleanText) then
          chunk_loop rounds' (Z.max (startIndex + 1) (endIndex - overlapSize))
            chunkIndex' chunks'
        else Some chunks'
      else Some chunks
  end.

End Chunking.

(** [chunkText(text, maxChunkSize, overlapSize)]. The loop moves on by one
    character at least, so one round per character of the text suffices
    ([chunk_loop_ends] below). *)
Definition chunkText (text : string) (maxChunkSize overlapSize : Z)
  : list TextChunk :=
  if String.eqb text "" || Z.eqb (len (trim text)) 0 then []
  else
    let cleanText := trim text in
    (* If text is smaller than max chunk size, return as single chunk *)
    if Z.leb (len cleanText) maxChunkSize then
      [{| chunk_content := cleanText; chunkIndex := 0; totalChunks := 1;
          startChar := 0; endChar := len cleanText |}]
    else
      match chunk_loop cleanText maxChunkSize overlapSize
              (S (String.length cleanText)) 0 0 [] with
      | Some chunks =>
          (* Update total chunks count *)
          map (set_totalChunks (Z.of_nat (List.length chunks))) chunks
      | None => []
      end.

(** A chunk that is a window on the text: not empty, the trimmed text
    between its two positions, which lie in the text and at most [size]
    apart. *)
Definition chunk_window (cleanText : string) (size : Z) (c : TextChunk)
  : Prop :=
  chunk_content c <> EmptyString
  /\ chunk_content c = trim (substring cleanText (startChar c) (endChar c))
  /\ (0 <= startChar c < endChar c)%Z
  /\ (endChar c <= len cleanText)%Z
  /\ (endChar c - startChar c <= size)%Z.

(** Numbered from [first] on. *)
Definition numbered_from (first : Z) (chunks : list TextChunk) : Prop :=
  map chunkIndex chunks
  = map (fun i => (first + Z.of_nat i)%Z) (seq 0 (List.length chunks)).

Definition sample_text : string :=
  "Odoo stores partners in res.partner. Products live in product.product.".

Example and_of_two :
  convertQueryToDomain
    (group_lit "AND" [condition_lit "active" "=" (Bool true);
                      condition_lit "country_id" "=" (Num 186)])
  = Normal [Arr [Str "active"; Str "="; Bool true];
            Arr [Str "country_id"; Str "="; Num 186]].
Proof. reflexivity. Qed.

Example array_like_conditions :
  convertQueryToDomain
    (Obj [("logic", Str "AND");
          ("conditions", Obj [("length", Num 1); ("0", in_qatar)])])
  = Normal [Arr [Str "country_id"; Str "="; Num 186]].
Proof. reflexivity. Qed.

Example null_condition_throws :
  convertQueryToDomain (group_lit "AND" [Null]) = Throw TypeError
  /\ convertQueryToDomain (group_lit "AND" [is_active; Null]) = Throw TypeError.
Proof. split; reflexivity. Qed.

Example string_for_conditions_throws :
  convertQueryToDomain (Obj [("logic", Str "OR"); ("conditions", Str "ab")])
  = Throw TypeError.
Proof. reflexivity. Qed.

Example later_binding_wins :
  get (Obj [("logic", Str "AND"); ("logic", Str "OR")]) "logic"
  = Normal (Str "OR").
Proof. reflexivity. Qed.

Example or_of_two :
  convertQueryToDomain
    (group_lit "OR" [condition_lit "country_id" "=" (Num 186);
                     condition_lit "country_id" "=" (Num 38)])
  = Normal [Str "|"; Arr [Str "country_id"; Str "="; Num 186];
            Arr [Str "country_id"; Str "="; Num 38]].
Proof. reflexivity. Qed.

(** ** Reading values: sizes *)

Lemma size_own (k : string) (props : list (string * value)) (v : value) :
  own k props = Some v -> size v < size (Obj props).
Proof.
  induction props as [|[k' x] rest IH]; simpl; [discriminate|].
  destruct (own k rest) as [later|].
  - intros H. inversion H; subst. specialize (IH eq_refl). simpl in IH. lia.
  - destruct (String.eqb k k'); intros H; inversion H; subst. lia.
Qed.

Lemma size_lookup (k : string) (props : list (string * value)) :
  size (lookup k props) < size (Obj props).
Proof.
  unfold lookup. destruct (own k props) as [v|] eqn:O.
  - exact (size_own _ _ _ O).
  - simpl. lia.
Qed.

Lemma size_nth (i : nat) (elems : list value) :
  size (nth i elems Undefined) < size (Arr elems).
Proof.
  revert i; induction elems as [|x rest IH]; intros [|i]; simpl in *; try lia.
  specialize (IH i); lia.
Qed.

Lemma size_In (x : value) (elems : list value) :
  In x elems -> size x < size (Arr elems).
Proof.
  induction elems as [|y rest IH]; simpl; [tauto|].
  intros [->|H]; [lia|]. apply IH in H. simpl in H. lia.
Qed.

Lemma size_get_index (o v : value) (i : nat) :
  get_index o i = Normal v -> size v <= size o.
Proof.
  destruct o; simpl; intros H; inversion H; subst; clear H; simpl; try lia.
  - destruct (String.get i s); simpl; lia.
  - pose proof (size_nth i elems) as L. simpl in L. lia.
  - pose proof (size_lookup (NilEmpty.string_of_uint (Nat.to_uint i)) props) as L.
    simpl in L. lia.
Qed.

(** ** The recursive compiler satisfies the equation of the source *)

Lemma each_ext {S : Type} (f g : S -> value -> completion S)
    (elems : list value) :
  (forall x, In x elems -> forall s, f s x = g s x) ->
  forall s, each f elems s = each g elems s.
Proof.
  induction elems as [|x rest IH]; intros E s; simpl; [reflexivity|].
  rewrite (E x (or_introl eq_refl)).
  destruct (g s x); simpl; [|reflexivity].
  apply IH. intros y Hy. apply E. now right.
Qed.

Lemma convertComplex_step_ext (f g : value -> completion (list value))
    (queryGroup : value) :
  (forall v, size v < size queryGroup -> f v = g v) ->
  convertComplex_step f queryGroup = convertComplex_step g queryGroup.
Proof.
  intros E. destruct queryGroup as [| |b|n|s|elems|props]; try reflexivity.
  unfold convertComplex_step.
  change (get (Obj props) "logic") with (Normal (lookup "logic" props)).
  change (get (Obj props) "conditions")
    with (Normal (lookup "conditions" props)).
  cbn [bind].
  pose proof (size_lookup "conditions" props) as Lc.
  destruct (negb (truthy (lookup "conditions" props))); [reflexivity|].
  destruct (get (lookup "conditions" props) "length") as [len|]; [|reflexivity].
  cbn [bind].
  destruct (is_num len 0); [reflexivity|].
  destruct (get_index (lookup "conditions" props) 0) as [first|] eqn:G0;
    [|reflexivity].
  cbn [bind]. apply size_get_index in G0.
  destruct (get first "field") as [ff|]; [|reflexivity].
  cbn [bind].
  destruct (negb (is_undefined ff)); [reflexivity|].
  destruct (is_num len 1).
  - apply E. lia.
  - unfold forEach. destruct (lookup "conditions" props) as [| |b|n|s|elems|ps];
      try reflexivity.
    apply each_ext. intros x Hx s. rewrite E; [reflexivity|].
    apply size_In in Hx. lia.
Qed.

Lemma convertComplex_fuel_stable (n m : nat) (queryGroup : value) :
  size queryGroup < n -> size queryGroup < m ->
  convertComplex_fuel n queryGroup = convertComplex_fuel m queryGroup.
Proof.
  revert m queryGroup.
  induction n as [|n IH]; intros [|m] q Hn Hm; try lia.
  simpl. apply convertComplex_step_ext. intros v Hv. apply IH; lia.
Qed.

Lemma convertComplexQueryToDomain_unfold (queryGroup : value) :
  convertComplexQueryToDomain queryGroup
  = convertComplex_step convertComplexQueryToDomain queryGroup.
Proof.
  unfold convertComplexQueryToDomain at 1. simpl.
  apply convertComplex_step_ext. intros v Hv.
  unfold convertComplexQueryToDomain.
  apply convertComplex_fuel_stable; lia.
Qed.

(** ** The production compiler on an array of conditions *)

Lemma is_num_length_0 (n : nat) :
  is_num (Num (Z.of_nat n)) 0 = Nat.eqb n 0.
Proof.
  unfold is_num. destruct (Nat.eqb_spec n 0) as [->|N]; [reflexivity|].
  apply Z.eqb_neq. lia.
Qed.

Lemma is_num_length_1 (n : nat) :
  is_num (Num (Z.of_nat n)) 1 = Nat.eqb n 1.
Proof.
  unfold is_num. destruct (Nat.eqb_spec n 1) as [->|N]; [reflexivity|].
  apply Z.eqb_neq. lia.
Qed.

Lemma tuple_readable (c : value) :
  readable c = true -> tuple c = Normal (triple c).
Proof. destruct c; simpl; intros R; try discriminate; reflexivity. Qed.

Lemma each_tuples (conds domain : list value) :
  forallb readable conds = true ->
  each (fun domain condition => t <- tuple condition ;; Normal (domain ++ [t]))
    conds domain
  = Normal (domain ++ map triple conds).
Proof.
  revert domain. induction conds as [|c rest IH]; intros domain R; simpl.
  - now rewrite app_nil_r.
  - simpl in R. apply andb_prop in R as [Rc Rr].
    rewrite (tuple_readable c Rc). cbn [bind].
    rewrite (IH _ Rr), <- app_assoc. reflexivity.
Qed.

Lemma markers_or (n : nat) :
  markers (Str "OR") (Num (Z.of_nat n)) = repeat (Str "|") (n - 1).
Proof.
  unfold markers, rounds. simpl is_str. cbv iota.
  f_equal. lia.
Qed.

(** What the compiler answers on any array of readable elements. *)
Lemma convertQueryToDomain_array (query logic : value) (conds : list value) :
  get query "logic" = Normal logic ->
  get query "conditions" = Normal (Arr conds) ->
  forallb readable conds = true ->
  convertQueryToDomain query
  = Normal match conds with
           | [] => []
           | [c] => [triple c]
           | _ => markers logic (Num (Z.of_nat (List.length conds)))
                    ++ map triple conds
           end.
Proof.
  intros Gl Gc R. unfold convertQueryToDomain.
  rewrite Gl, Gc. cbn [bind truthy negb].
  change (get (Arr conds) "length")
    with (Normal (Num (Z.of_nat (List.length conds)))).
  cbn [bind]. rewrite is_num_length_0, is_num_length_1.
  destruct conds as [|c [|c' rest]]; cbn [List.length Nat.eqb].
  - reflexivity.
  - cbn [get_index nth bind]. simpl in R.
    apply andb_prop in R as [Rc _]. rewrite (tuple_readable c Rc). reflexivity.
  - unfold push_conditions, forEach. rewrite (each_tuples _ _ R).
    reflexivity.
Qed.

Lemma leaves_readable (conds : list value) :
  forallb is_leaf conds = true -> forallb readable conds = true.
Proof.
  induction conds as [|c rest IH]; simpl; [reflexivity|].
  intros H. apply andb_prop in H as [Hc Hr]. rewrite (IH Hr).
  destruct c; try discriminate; reflexivity.
Qed.

(** ** Properties of the production compiler *)

(** C1 (the code departs from it): a NOT group of one condition is answered
    by the single-condition return before any marker is pushed, so
    [{logic:"NOT", conditions:[{field:"email",operator:"=",value:false}]}]
    compiles to [[["email","=",false]]], without the ["!"] that the
    specification and the repository's own guide (knowledge.md, NOT
    operation: "NOT (email is empty)") call for. *)
Theorem not_of_one_condition_loses_marker :
  convertQueryToDomain (group_lit "NOT" [email_unset])
  = Normal [Arr [Str "email"; Str "="; Bool false]]
  /\ convertQueryToDomain (group_lit "NOT" [email_unset])
     <> Normal [Str "!"; Arr [Str "email"; Str "="; Bool false]].
Proof. split; [reflexivity | discriminate]. Qed.

(** With two conditions or more the marker is there. *)
Lemma not_of_many (query : value) (conds : list value) :
  get query "logic" = Normal (Str "NOT") ->
  get query "conditions" = Normal (Arr conds) ->
  forallb is_leaf conds = true ->
  2 <= List.length conds ->
  convertQueryToDomain query = Normal (Str "!" :: map triple conds).
Proof.
  intros Gl Gc L N.
  rewrite (convertQueryToDomain_array query _ _ Gl Gc (leaves_readable _ L)).
  destruct conds as [|c [|c' rest]]; simpl in N; try lia. reflexivity.
Qed.

(** C2: an OR group of N >= 2 leaf conditions compiles to N-1 ["|"] markers
    followed by the N condition tuples in input order. *)
Theorem or_markers_then_operands (query : value) (conds : list value) :
  get query "logic" = Normal (Str "OR") ->
  get query "conditions" = Normal (Arr conds) ->
  forallb is_leaf conds = true ->
  2 <= List.length conds ->
  convertQueryToDomain query
  = Normal (repeat (Str "|") (List.length conds - 1) ++ map triple conds).
Proof.
  intros Gl Gc L N.
  rewrite (convertQueryToDomain_array query _ _ Gl Gc (leaves_readable _ L)).
  destruct conds as [|c [|c' rest]]; simpl in N; try lia.
  now rewrite markers_or.
Qed.

Lemma or_markers_then_operands_witness :
  convertQueryToDomain (group_lit "OR" [in_qatar; in_canada; is_active])
  = Normal [Str "|"; Str "|";
            Arr [Str "country_id"; Str "="; Num 186];
            Arr [Str "country_id"; Str "="; Num 38];
            Arr [Str "active"; Str "="; Bool true]].
Proof.
  apply (or_markers_then_operands
           (group_lit "OR" [in_qatar; in_canada; is_active])
           [in_qatar; in_canada; is_active]);
    [reflexivity | reflexivity | reflexivity | simpl; lia].
Defined.

(** C3: a group with exactly one leaf condition compiles to that condition's
    tuple alone, whatever its logic is (AND, OR and NOT included). *)
Theorem single_condition_ignores_logic (query logic c : value) :
  get query "logic" = Normal logic ->
  get query "conditions" = Normal (Arr [c]) ->
  is_leaf c = true ->
  convertQueryToDomain query = Normal [triple c].
Proof.
  intros Gl Gc L.
  rewrite (convertQueryToDomain_array query _ _ Gl Gc); [reflexivity|].
  apply leaves_readable. simpl. now rewrite L.
Qed.

Lemma single_condition_ignores_logic_witness :
  convertQueryToDomain (group_lit "AND" [in_qatar])
  = Normal [Arr [Str "country_id"; Str "="; Num 186]]
  /\ convertQueryToDomain (group_lit "OR" [in_qatar])
     = Normal [Arr [Str "country_id"; Str "="; Num 186]]
  /\ convertQueryToDomain (group_lit "NOT" [in_qatar])
     = Normal [Arr [Str "country_id"; Str "="; Num 186]].
Proof.
  split; [|split].
  - apply (single_condition_ignores_logic (group_lit "AND" [in_qatar])
             (Str "AND") in_qatar); reflexivity.
  - apply (single_condition_ignores_logic (group_lit "OR" [in_qatar])
             (Str "OR") in_qatar); reflexivity.
  - apply (single_condition_ignores_logic (group_lit "NOT" [in_qatar])
             (Str "NOT") in_qatar); reflexivity.
Defined.

(** C4: an AND group of N >= 2 leaf conditions compiles to the N condition
    tuples in input order and nothing else, so the output has length N. *)
Theorem and_is_juxtaposition (query : value) (conds : list value) :
  get query "logic" = Normal (Str "AND") ->
  get query "conditions" = Normal (Arr conds) ->
  forallb is_leaf conds = true ->
  2 <= List.length conds ->
  exists domain,
    convertQueryToDomain query = Normal domain
    /\ domain = map triple conds
    /\ List.length domain = List.length conds.
Proof.
  intros Gl Gc L N. exists (map triple conds).
  rewrite (convertQueryToDomain_array query _ _ Gl Gc (leaves_readable _ L)).
  destruct conds as [|c [|c' rest]]; simpl in N; try lia.
  repeat split. now rewrite length_map.
Qed.

Lemma and_is_juxtaposition_witness :
  exists domain,
    convertQueryToDomain (group_lit "AND" [is_active; in_qatar]) = Normal domain
    /\ domain = [Arr [Str "active"; Str "="; Bool true];
                 Arr [Str "country_id"; Str "="; Num 186]]
    /\ List.length domain = 2.
Proof.
  apply (and_is_juxtaposition (group_lit "AND" [is_active; in_qatar])
           [is_active; in_qatar]);
    [reflexivity | reflexivity | reflexivity | simpl; lia].
Defined.

(** C7: a group whose conditions array is empty compiles, under every logic,
    to the empty filter expression; nothing is thrown. *)
Theorem empty_conditions_compile_to_nothing (query logic : value) :
  get query "logic" = Normal logic ->
  get query "conditions" = Normal (Arr []) ->
  convertQueryToDomain query = Normal [].
Proof.
  intros Gl Gc.
  now rewrite (convertQueryToDomain_array query _ _ Gl Gc eq_refl).
Qed.

Lemma empty_conditions_compile_to_nothing_witness :
  convertQueryToDomain (group_lit "AND" []) = Normal []
  /\ convertQueryToDomain (group_lit "OR" []) = Normal []
  /\ convertQueryToDomain (group_lit "NOT" []) = Normal [].
Proof.
  split; [|split].
  - apply (empty_conditions_compile_to_nothing (group_lit "AND" []) (Str "AND"));
      reflexivity.
  - apply (empty_conditions_compile_to_nothing (group_lit "OR" []) (Str "OR"));
      reflexivity.
  - apply (empty_conditions_compile_to_nothing (group_lit "NOT" []) (Str "NOT"));
      reflexivity.
Defined.

Lemma markers_are_markers (logic len : value) :
  forallb is_marker (markers logic len) = true.
Proof.
  unfold markers. destruct (is_str logic "OR").
  - induction (rounds len) as [|n IH]; simpl; [reflexivity | exact IH].
  - destruct (is_str logic "NOT"); reflexivity.
Qed.

Lemma objects_readable (conds : list value) :
  forallb is_object conds = true -> forallb readable conds = true.
Proof.
  induction conds as [|c rest IH]; simpl; [reflexivity|].
  intros H. apply andb_prop in H as [Hc Hr]. rewrite (IH Hr).
  destruct c; try discriminate; reflexivity.
Qed.

Lemma lookup_absent (k : string) (props : list (string * value)) :
  existsb (String.eqb k) (map fst props) = false ->
  lookup k props = Undefined.
Proof.
  unfold lookup. intros A.
  assert (O : own k props = None); [|now rewrite O].
  induction props as [|[k' v] rest IH]; simpl in *; [reflexivity|].
  apply orb_false_iff in A as [A1 A2]. now rewrite (IH A2), A1.
Qed.

Lemma prop_lacking (k : string) (c : value) :
  is_object c = true -> lacks k c = true -> prop c k = Undefined.
Proof.
  destruct c as [| |b|n|s|elems|props]; try discriminate.
  intros _ L. unfold prop. simpl in *.
  apply lookup_absent. now apply negb_true_iff in L.
Qed.

(** C8: a group whose conditions are objects, some of them without a
    [field], an [operator] or a [value], is compiled all the same: nothing is
    thrown, every condition yields its 3-tuple in place, behind markers only,
    and each component a condition lacks is [undefined] in its tuple. *)
Theorem malformed_leaf_is_compiled (query logic : value) (conds : list value) :
  get query "logic" = Normal logic ->
  get query "conditions" = Normal (Arr conds) ->
  conds <> [] ->
  forallb is_object conds = true ->
  exists ms,
    convertQueryToDomain query = Normal (ms ++ map triple conds)
    /\ forallb is_marker ms = true
    /\ forall c k,
         In c conds -> lacks k c = true ->
         In (triple c) (ms ++ map triple conds) /\ prop c k = Undefined.
Proof.
  intros Gl Gc NE O.
  rewrite (convertQueryToDomain_array query _ _ Gl Gc (objects_readable _ O)).
  assert (P : forall ms c k, In c conds -> lacks k c = true ->
            In (triple c) (ms ++ map triple conds) /\ prop c k = Undefined).
  { intros ms c k I L. split.
    - apply in_or_app. right. now apply in_map.
    - apply prop_lacking; [|exact L].
      rewrite forallb_forall in O. now apply O. }
  destruct conds as [|c [|c' rest]]; [congruence | |].
  - exists []. split; [reflexivity|]. split; [reflexivity|]. apply P.
  - eexists. split; [reflexivity|]. split; [apply markers_are_markers|].
    apply P.
Qed.

Lemma malformed_leaf_is_compiled_witness :
  exists ms,
    convertQueryToDomain (group_lit "OR" [no_field; no_value])
    = Normal (ms ++ [Arr [Undefined; Str "="; Num 7];
                     Arr [Str "name"; Str "="; Undefined]])
    /\ forallb is_marker ms = true
    /\ forall c k,
         In c [no_field; no_value] -> lacks k c = true ->
         In (triple c) (ms ++ map triple [no_field; no_value])
         /\ prop c k = Undefined.
Proof.
  apply (malformed_leaf_is_compiled (group_lit "OR" [no_field; no_value])
           (Str "OR") [no_field; no_value]);
    [reflexivity | reflexivity | discriminate | reflexivity].
Defined.

Example malformed_leaves_run :
  convertQueryToDomain (group_lit "OR" [no_field; no_value])
  = Normal [Str "|"; Arr [Undefined; Str "="; Num 7];
            Arr [Str "name"; Str "="; Undefined]].
Proof. reflexivity. Qed.

(** ** Properties of the recursive compiler *)

(** The recursive compiler and the production one agree as soon as the first
    element of [conditions] shows a [field]. *)
Lemma convertComplex_first_is_leaf (queryGroup c : value) (rest : list value) :
  get queryGroup "conditions" = Normal (Arr (c :: rest)) ->
  is_leaf c = true ->
  convertComplexQueryToDomain queryGroup = convertQueryToDomain queryGroup.
Proof.
  intros Gc L. rewrite convertComplexQueryToDomain_unfold.
  unfold convertComplex_step, convertQueryToDomain.
  destruct (get queryGroup "logic") as [logic|]; [|reflexivity].
  rewrite Gc. cbn [bind truthy negb].
  change (get (Arr (c :: rest)) "length")
    with (Normal (Num (Z.of_nat (List.length (c :: rest))))).
  cbn [bind]. rewrite is_num_length_0. cbn [List.length Nat.eqb].
  cbn [get_index nth bind].
  destruct c as [| |b|n|s|elems|props]; try discriminate.
  simpl in L. cbn [get bind].
  destruct (lookup "field" props); try discriminate.
  reflexivity.
Qed.

Lemma convertComplex_on_leaves (queryGroup : value) (conds : list value) :
  get queryGroup "conditions" = Normal (Arr conds) ->
  forallb is_leaf conds = true ->
  convertComplexQueryToDomain queryGroup = convertQueryToDomain queryGroup.
Proof.
  intros Gc L. destruct conds as [|c rest].
  - rewrite convertComplexQueryToDomain_unfold.
    unfold convertComplex_step, convertQueryToDomain.
    destruct (get queryGroup "logic"); [|reflexivity].
    rewrite Gc. reflexivity.
  - simpl in L. apply andb_prop in L as [Lc _].
    exact (convertComplex_first_is_leaf queryGroup c rest Gc Lc).
Qed.

(** A value that answers one property read answers them all. *)
Lemma get_any (o v : value) (k k' : string) :
  get o k = Normal v -> exists v', get o k' = Normal v'.
Proof. destruct o; simpl; try discriminate; intros _; eexists; reflexivity. Qed.

(** C5: on a group whose conditions are all leaf conditions, both compilers
    answer, and the recursive compiler answers exactly the token sequence
    the production compiler answers. *)
Theorem flat_groups_compile_alike (queryGroup : value) (conds : list value) :
  get queryGroup "conditions" = Normal (Arr conds) ->
  forallb is_leaf conds = true ->
  exists d,
    convertQueryToDomain queryGroup = Normal d
    /\ convertComplexQueryToDomain queryGroup = Normal d.
Proof.
  intros Gc L.
  destruct (get_any queryGroup _ "conditions" "logic" Gc) as [logic Gl].
  rewrite (convertComplex_on_leaves queryGroup conds Gc L).
  rewrite (convertQueryToDomain_array queryGroup _ _ Gl Gc
             (leaves_readable _ L)).
  eexists. split; reflexivity.
Qed.

Lemma flat_groups_compile_alike_witness :
  exists d,
    convertQueryToDomain (group_lit "OR" [in_qatar; in_canada; is_active])
    = Normal d
    /\ convertComplexQueryToDomain
         (group_lit "OR" [in_qatar; in_canada; is_active])
       = Normal d.
Proof.
  apply (flat_groups_compile_alike
           (group_lit "OR" [in_qatar; in_canada; is_active])
           [in_qatar; in_canada; is_active]); reflexivity.
Defined.

(** The agreement stops where a leaf has no [field]: the recursive compiler
    takes it for a nested group and finds no conditions in it. *)
Example leaf_without_field_is_taken_for_a_group :
  convertQueryToDomain (group_lit "AND" [no_field; is_active])
  = Normal [Arr [Undefined; Str "="; Num 7];
            Arr [Str "active"; Str "="; Bool true]]
  /\ convertComplexQueryToDomain (group_lit "AND" [no_field; is_active])
     = Normal [].
Proof. split; reflexivity. Qed.

(** Nested groups: the first element shows no [field]. *)
Lemma convertComplex_first_is_nested (queryGroup logic g : value)
    (rest : list value) :
  get queryGroup "logic" = Normal logic ->
  get queryGroup "conditions" = Normal (Arr (g :: rest)) ->
  is_nested g = true ->
  convertComplexQueryToDomain queryGroup
  = match rest with
    | [] => convertComplexQueryToDomain g
    | _ =>
        each (fun domain group =>
                groupDomain <- convertComplexQueryToDomain group ;;
                Normal (domain ++ groupDomain))
          (g :: rest)
          (markers logic (Num (Z.of_nat (List.length (g :: rest)))))
    end.
Proof.
  intros Gl Gc Ng. rewrite convertComplexQueryToDomain_unfold at 1.
  unfold convertComplex_step. rewrite Gl, Gc. cbn [bind truthy negb].
  change (get (Arr (g :: rest)) "length")
    with (Normal (Num (Z.of_nat (List.length (g :: rest))))).
  cbn [bind]. rewrite is_num_length_0, is_num_length_1.
  cbn [List.length Nat.eqb get_index nth bind].
  destruct g as [| |b|n|s|elems|props]; try discriminate.
  simpl in Ng. cbn [get bind]. rewrite Ng. cbn [negb].
  destruct rest; reflexivity.
Qed.

Lemma each_groups (self : value -> completion (list value))
    (subs : list value) (ds : list (list value)) :
  Forall2 (fun g d => self g = Normal d) subs ds ->
  forall domain,
    each (fun domain group =>
            groupDomain <- self group ;; Normal (domain ++ groupDomain))
      subs domain
    = Normal (domain ++ List.concat ds).
Proof.
  induction 1 as [|g d subs ds Hg _ IH]; intros domain; simpl.
  - now rewrite app_nil_r.
  - rewrite Hg. cbn [bind]. rewrite IH, app_assoc. reflexivity.
Qed.

Lemma QueryGroup_is_nested (g : value) : QueryGroup g -> is_nested g = true.
Proof. intros [props conds _ F _ _ _|props conds _ F _ _ _]; simpl; now rewrite F. Qed.

(** Well-shaped groups compile: the recursive compiler throws nothing on
    them. *)
Lemma QueryGroup_compiles (n : nat) :
  forall g, size g < n -> QueryGroup g ->
  exists d, convertComplexQueryToDomain g = Normal d.
Proof.
  induction n as [|n IH]; intros g Hn Hg; [lia|].
  destruct Hg as [props conds Lg F Gc NE L|props conds Lg F Gc NE Gs].
  - rewrite (convertComplex_on_leaves (Obj props) conds);
      [|simpl; now rewrite Gc | exact L].
    rewrite (convertQueryToDomain_array (Obj props) (lookup "logic" props) conds);
      [eexists; reflexivity | reflexivity | simpl; now rewrite Gc
      | now apply leaves_readable].
  - destruct conds as [|g rest]; [congruence|].
    assert (Sz : forall x, In x (g :: rest) -> size x < n).
    { intros x Hx. apply size_In in Hx.
      pose proof (size_lookup "conditions" props) as Lc. rewrite Gc in Lc. lia. }
    assert (Ds : exists ds,
               Forall2 (fun g d => convertComplexQueryToDomain g = Normal d)
                 (g :: rest) ds).
    { clear Gc NE. induction Gs as [|x l Hx _ IHl]; [exists []; constructor|].
      destruct IHl as [ds Hds]; [intros y Hy; apply Sz; now right|].
      destruct (IH x) as [d Hd]; [apply Sz; now left | exact Hx |].
      exists (d :: ds). now constructor. }
    destruct Ds as [ds Hds].
    rewrite (convertComplex_first_is_nested (Obj props) (lookup "logic" props)
               g rest);
      [| reflexivity | simpl; now rewrite Gc
       | apply QueryGroup_is_nested; now inversion Gs].
    destruct rest as [|g' rest'].
    + inversion Hds; subst. eexists; eassumption.
    + rewrite (each_groups _ _ _ Hds). eexists; reflexivity.
Qed.

(** C6: a group with logic OR whose conditions are k >= 2 nested groups
    compiles, recursively, to k-1 ["|"] markers followed by what each
    sub-group compiles to, concatenated in input order. *)
Theorem or_of_nested_groups (queryGroup : value) (subs : list value) :
  get queryGroup "logic" = Normal (Str "OR") ->
  get queryGroup "conditions" = Normal (Arr subs) ->
  Forall QueryGroup subs ->
  2 <= List.length subs ->
  exists ds,
    Forall2 (fun g d => convertComplexQueryToDomain g = Normal d) subs ds
    /\ convertComplexQueryToDomain queryGroup
       = Normal (repeat (Str "|") (List.length subs - 1) ++ List.concat ds).
Proof.
  intros Gl Gc Gs N.
  assert (Ds : exists ds,
             Forall2 (fun g d => convertComplexQueryToDomain g = Normal d)
               subs ds).
  { clear Gc N. induction Gs as [|x l Hx _ [ds Hds]]; [exists []; constructor|].
    destruct (QueryGroup_compiles (S (size x)) x) as [d Hd]; [lia|exact Hx|].
    exists (d :: ds). now constructor. }
  destruct Ds as [ds Hds]. exists ds. split; [exact Hds|].
  destruct subs as [|g [|g' rest]]; simpl in N; try lia.
  rewrite (convertComplex_first_is_nested queryGroup (Str "OR") g (g' :: rest)
             Gl Gc);
    [| apply QueryGroup_is_nested; now inversion Gs].
  rewrite (each_groups _ _ _ Hds), markers_or. reflexivity.
Qed.

Lemma or_of_nested_groups_witness :
  exists ds,
    Forall2 (fun g d => convertComplexQueryToDomain g = Normal d)
      [active_in_qatar; reachable_elsewhere] ds
    /\ convertComplexQueryToDomain
         (group_lit "OR" [active_in_qatar; reachable_elsewhere])
       = Normal (repeat (Str "|") (2 - 1) ++ List.concat ds).
Proof.
  apply (or_of_nested_groups
           (group_lit "OR" [active_in_qatar; reachable_elsewhere])
           [active_in_qatar; reachable_elsewhere]);
    [reflexivity | reflexivity | | simpl; lia].
  repeat apply Forall_cons; try apply Forall_nil;
    (eapply QG_leaves;
     [reflexivity | reflexivity | reflexivity | discriminate | reflexivity]).
Defined.

Example or_of_nested_groups_run :
  convertComplexQueryToDomain
    (group_lit "OR" [active_in_qatar; reachable_elsewhere])
  = Normal [Str "|";
            Arr [Str "active"; Str "="; Bool true];
            Arr [Str "country_id"; Str "="; Num 186];
            Str "!";
            Arr [Str "email"; Str "="; Bool false];
            Arr [Str "country_id"; Str "="; Num 186]].
Proof. reflexivity. Qed.

(** ** Every output is a flat sequence of tokens *)

Lemma tuple_is_tuple (c t : value) :
  tuple c = Normal t -> is_tuple t = true.
Proof.
  unfold tuple. destruct (get c "field"); [|discriminate].
  destruct (get c "operator"); [|discriminate].
  destruct (get c "value"); [|discriminate].
  cbn [bind]. intros H. inversion H. reflexivity.
Qed.

Lemma tuple_is_token (t : value) : is_tuple t = true -> is_token t = true.
Proof. unfold is_token. intros ->. now rewrite orb_true_r. Qed.

Lemma marker_is_token (t : value) : is_marker t = true -> is_token t = true.
Proof. unfold is_token, is_marker. now intros ->. Qed.

Lemma markers_are_tokens (logic len : value) :
  forallb is_token (markers logic len) = true.
Proof.
  pose proof (markers_are_markers logic len) as M.
  rewrite forallb_forall in *. intros t Ht. apply marker_is_token. now apply M.
Qed.

Lemma tokens_app (xs ys : list value) :
  forallb is_token xs = true -> forallb is_token ys = true ->
  forallb is_token (xs ++ ys) = true.
Proof. intros X Y. now rewrite forallb_app, X, Y. Qed.

Lemma push_conditions_tokens (conditions : value) (domain d : list value) :
  forallb is_token domain = true ->
  push_conditions conditions domain = Normal d ->
  forallb is_token d = true.
Proof.
  unfold push_conditions, forEach.
  destruct conditions as [| |b|n|s|elems|props]; try discriminate.
  revert domain. induction elems as [|c rest IH]; intros domain T; simpl.
  - intros H. now inversion H; subst.
  - destruct (tuple c) as [t|] eqn:Tc; [|discriminate]. cbn [bind].
    apply IH. apply tokens_app; [exact T|].
    simpl. now rewrite (tuple_is_token _ (tuple_is_tuple _ _ Tc)).
Qed.

Lemma single_tuple_tokens (conditions : value) (d : list value) :
  (condition <- get_index conditions 0 ;;
   t <- tuple condition ;; Normal [t]) = Normal d ->
  forallb is_token d = true.
Proof.
  destruct (get_index conditions 0) as [c|]; [|discriminate]. cbn [bind].
  destruct (tuple c) as [t|] eqn:Tc; [|discriminate]. cbn [bind].
  intros H. inversion H. simpl.
  now rewrite (tuple_is_token _ (tuple_is_tuple _ _ Tc)).
Qed.

(** Whatever the production compiler is given, what it answers is made of
    markers and 3-tuples. *)
Lemma convertQueryToDomain_tokens (query : value) (d : list value) :
  convertQueryToDomain query = Normal d -> forallb is_token d = true.
Proof.
  unfold convertQueryToDomain.
  destruct (get query "logic") as [logic|]; [|discriminate].
  destruct (get query "conditions") as [conditions|]; [|discriminate].
  cbn [bind].
  destruct (negb (truthy conditions)); [intros H; now inversion H|].
  destruct (get conditions "length") as [len|]; [|discriminate].
  cbn [bind].
  destruct (is_num len 0); [intros H; now inversion H|].
  destruct (is_num len 1).
  - apply single_tuple_tokens.
  - apply push_conditions_tokens. apply markers_are_tokens.
Qed.

Lemma convertComplex_step_tokens (self : value -> completion (list value)) :
  (forall v d, self v = Normal d -> forallb is_token d = true) ->
  forall queryGroup d,
    convertComplex_step self queryGroup = Normal d ->
    forallb is_token d = true.
Proof.
  intros Hs q d. unfold convertComplex_step.
  destruct (get q "logic") as [logic|]; [|discriminate].
  destruct (get q "conditions") as [conditions|]; [|discriminate].
  cbn [bind].
  destruct (negb (truthy conditions)); [intros H; now inversion H|].
  destruct (get conditions "length") as [len|]; [|discriminate].
  cbn [bind].
  destruct (is_num len 0); [intros H; now inversion H|].
  destruct (get_index conditions 0) as [first|] eqn:G0; [|discriminate].
  cbn [bind].
  destruct (get first "field") as [ff|]; [|discriminate].
  cbn [bind].
  destruct (negb (is_undefined ff)); destruct (is_num len 1).
  - intros H. apply (single_tuple_tokens conditions). now rewrite G0.
  - apply push_conditions_tokens. apply markers_are_tokens.
  - apply Hs.
  - unfold forEach.
    destruct conditions as [| |b|n|s|elems|props]; try discriminate.
    simpl app. generalize (markers_are_tokens logic len).
    generalize (markers logic len) as domain.
    clear G0. induction elems as [|g rest IH]; intros domain T; simpl.
    + intros H. now inversion H; subst.
    + destruct (self g) as [gd|] eqn:Sg; [|discriminate]. cbn [bind].
      apply IH. apply tokens_app; [exact T | exact (Hs _ _ Sg)].
Qed.

Lemma convertComplexQueryToDomain_tokens (queryGroup : value)
    (d : list value) :
  convertComplexQueryToDomain queryGroup = Normal d ->
  forallb is_token d = true.
Proof.
  unfold convertComplexQueryToDomain.
  generalize (S (size queryGroup)) as n. intros n. revert queryGroup d.
  induction n as [|n IH]; intros q d; simpl; [discriminate|].
  now apply convertComplex_step_tokens.
Qed.

(** The production compiler throws nothing on a well-shaped group either:
    the elements of [conditions] are objects. *)
Lemma QueryGroup_compiles_flat (g : value) :
  QueryGroup g -> exists d, convertQueryToDomain g = Normal d.
Proof.
  intros [props conds _ _ Gc _ L|props conds _ _ Gc _ Gs].
  - rewrite (convertQueryToDomain_array (Obj props) (lookup "logic" props) conds);
      [eexists; reflexivity | reflexivity | simpl; now rewrite Gc
      | now apply leaves_readable].
  - rewrite (convertQueryToDomain_array (Obj props) (lookup "logic" props) conds);
      [eexists; reflexivity | reflexivity | simpl; now rewrite Gc |].
    apply forallb_forall. intros x Hx. rewrite Forall_forall in Gs.
    destruct (Gs x Hx); reflexivity.
Qed.

(** C9: on every query group both compilers answer, and every element of
    what they answer is ["|"], ["!"] or a 3-element tuple. *)
Theorem outputs_are_flat_token_arrays (queryGroup : value) :
  QueryGroup queryGroup ->
  (exists d, convertQueryToDomain queryGroup = Normal d
             /\ forallb is_token d = true)
  /\ (exists d, convertComplexQueryToDomain queryGroup = Normal d
                /\ forallb is_token d = true).
Proof.
  intros Q. split.
  - destruct (QueryGroup_compiles_flat queryGroup Q) as [d Hd].
    exists d. split; [exact Hd | exact (convertQueryToDomain_tokens _ _ Hd)].
  - destruct (QueryGroup_compiles (S (size queryGroup)) queryGroup) as [d Hd];
      [lia | exact Q |].
    exists d. split; [exact Hd | exact (convertComplexQueryToDomain_tokens _ _ Hd)].
Qed.

Lemma outputs_are_flat_token_arrays_witness :
  (exists d, convertQueryToDomain
               (group_lit "OR" [active_in_qatar; reachable_elsewhere])
             = Normal d
             /\ forallb is_token d = true)
  /\ (exists d, convertComplexQueryToDomain
                  (group_lit "OR" [active_in_qatar; reachable_elsewhere])
                = Normal d
                /\ forallb is_token d = true).
Proof.
  apply (outputs_are_flat_token_arrays
           (group_lit "OR" [active_in_qatar; reachable_elsewhere])).
  eapply QG_groups;
    [reflexivity | reflexivity | reflexivity | discriminate |].
  repeat apply Forall_cons; try apply Forall_nil;
    (eapply QG_leaves;
     [reflexivity | reflexivity | reflexivity | discriminate | reflexivity]).
Defined.

(** ** The entry points reject a query without conditions *)

Lemma each_tuples_length (elems domain d : list value) :
  each (fun domain condition => t <- tuple condition ;; Normal (domain ++ [t]))
    elems domain = Normal d ->
  List.length d = List.length domain + List.length elems.
Proof.
  revert domain. induction elems as [|c rest IH]; intros domain; simpl.
  - intros H. inversion H. lia.
  - destruct (tuple c) as [t|]; [|discriminate]. cbn [bind].
    intros H. apply IH in H. rewrite length_app in H. simpl in H. lia.
Qed.

(** Past the validation, the compiled domain has at least one token. *)
Lemma validated_domain_not_empty (query : value) (d : list value) :
  nothing_to_search query = Normal false ->
  convertQueryToDomain query = Normal d ->
  d <> [].
Proof.
  unfold nothing_to_search, convertQueryToDomain.
  destruct (negb (truthy query)); [discriminate|].
  destruct (get query "logic") as [logic|]; [|discriminate].
  destruct (get query "conditions") as [conditions|]; [|discriminate].
  cbn [bind].
  destruct (negb (truthy conditions)); [discriminate|].
  destruct (get conditions "length") as [len|] eqn:Gl; [|discriminate].
  cbn [bind]. intros V. inversion V as [V0]. rewrite V0.
  destruct (is_num len 1).
  - destruct (get_index conditions 0) as [c|]; [|discriminate]. cbn [bind].
    destruct (tuple c) as [t|]; [|discriminate]. cbn [bind].
    intros H. inversion H. discriminate.
  - unfold push_conditions, forEach.
    destruct conditions as [| |b|n|s|elems|props]; try discriminate.
    intros H. apply each_tuples_length in H.
    destruct elems as [|c rest].
    + simpl in Gl. inversion Gl; subst. discriminate.
    + destruct d; [simpl in H; lia | discriminate].
Qed.

Section Entry_points.

Variable engine_message : exn -> string.
Variable count_reply : request -> reply Z.
Variable read_reply : request -> reply (option (list value)).
Variable JSON_stringify : payload -> string.

Lemma search_rejects {R : Type} (wrap : payload -> R) (input : tool_input) :
  nothing_to_search (query input) = Normal true ->
  search engine_message count_reply read_reply wrap input
  = ([], wrap (Rejected no_conditions)).
Proof.
  intros V. unfold search, try_catch, and_then, engine. now rewrite V.
Qed.

Lemma search_sends_no_empty_domain {R : Type} (wrap : payload -> R)
    (input : tool_input) (r : request) :
  In (Called r) (fst (search engine_message count_reply read_reply wrap input)) ->
  request_domain r <> [].
Proof.
  unfold search, try_catch, and_then, engine, compile, call, done.
  destruct (nothing_to_search (query input)) as [[|]|] eqn:V;
    try (simpl; tauto).
  simpl app.
  destruct (convertQueryToDomain (query input)) as [d|] eqn:C.
  - pose proof (validated_domain_not_empty _ _ V C) as NE. simpl.
    match goal with
    | |- context [count_reply ?q] =>
        destruct (count_reply q) as [total|message]
    end.
    + destruct (count_only input).
      * simpl. intros [H|[H|[]]]; [discriminate|]. now inversion H; subst.
      * simpl.
        match goal with
        | |- context [read_reply ?q] =>
            destruct (read_reply q) as [records|message']
        end; simpl;
          intros [H|[H|[H|[]]]]; try discriminate; now inversion H; subst.
    + simpl. intros [H|[H|[]]]; [discriminate|]. now inversion H; subst.
  - simpl. intros [H|[]]. discriminate.
Qed.

(** C10: when the query is absent, or its [conditions] are missing or an
    empty array, both entry points answer the failure object carrying
    'No conditions provided. Please specify at least one condition.' with
    nothing logged: neither the compiler nor the remote end was called.
    And on any input at all, no remote call carries an empty domain. *)
Theorem no_conditions_no_search (input : tool_input) :
  (query input = Undefined
   \/ get (query input) "conditions" = Normal Undefined
   \/ get (query input) "conditions" = Normal (Arr []) ->
   smart_search_execute engine_message count_reply read_reply input
   = ([], Rejected no_conditions)
   /\ smartSearch engine_message count_reply read_reply JSON_stringify input
      = ([], {| content :=
                  [{| type := "text";
                      text := JSON_stringify (Rejected no_conditions) |}] |}))
  /\ (forall r,
        In (Called r)
          (fst (smart_search_execute engine_message count_reply read_reply
                  input))
        \/ In (Called r)
             (fst (smartSearch engine_message count_reply read_reply
                     JSON_stringify input)) ->
        request_domain r <> []).
Proof.
  split.
  - intros H.
    assert (V : nothing_to_search (query input) = Normal true).
    { unfold nothing_to_search.
      destruct H as [H|[H|H]]; [now rewrite H| |];
        destruct (negb (truthy (query input))); try reflexivity;
        now rewrite H. }
    unfold smart_search_execute, smartSearch.
    now rewrite !search_rejects.
  - intros r [H|H]; exact (search_sends_no_empty_domain _ _ _ H).
Qed.

End Entry_points.

Lemma no_conditions_no_search_witness :
  smart_search_execute v8_message three_partners_count three_partners_read
    (search_partners (group_lit "AND" []))
  = ([], Rejected no_conditions)
  /\ smartSearch v8_message three_partners_count three_partners_read tag_only
       (search_partners (group_lit "AND" []))
     = ([], {| content := [{| type := "text"; text := "rejected" |}] |}).
Proof.
  apply (proj1 (no_conditions_no_search v8_message three_partners_count
                  three_partners_read tag_only
                  (search_partners (group_lit "AND" [])))).
  right. right. reflexivity.
Defined.

Example search_runs :
  smart_search_execute v8_message three_partners_count three_partners_read
    (search_partners (group_lit "OR" [in_qatar; in_canada]))
  = ([Compiled (group_lit "OR" [in_qatar; in_canada]);
      Called (search_count some_connection "res.partner"
                [Str "|"; triple in_qatar; triple in_canada]);
      Called (search_read some_connection "res.partner"
                [Str "|"; triple in_qatar; triple in_canada] [] 0 20)],
     Found [Obj [("id", Num 1)]; Obj [("id", Num 2)]; Obj [("id", Num 3)]]
       3 3 "res.partner" (group_lit "OR" [in_qatar; in_canada])
       [Str "|"; triple in_qatar; triple in_canada] 0 20 false).
Proof. reflexivity. Qed.

Example search_without_query :
  smart_search_execute v8_message three_partners_count three_partners_read
    (search_partners Undefined)
  = ([], Rejected no_conditions).
Proof. reflexivity. Qed.

(** ** Further properties of the production compiler *)

Lemma each_tuples_throw (conds domain : list value) :
  forallb readable conds = false ->
  each (fun domain condition => t <- tuple condition ;; Normal (domain ++ [t]))
    conds domain
  = Throw TypeError.
Proof.
  revert domain. induction conds as [|c rest IH]; intros domain; simpl;
    [discriminate|].
  destruct (readable c) eqn:Rc; simpl.
  - intros Rr. rewrite (tuple_readable c Rc). cbn [bind]. now apply IH.
  - intros _. destruct c; try discriminate; reflexivity.
Qed.

Lemma unreadable_array_throws (query logic : value) (conds : list value) :
  get query "logic" = Normal logic ->
  get query "conditions" = Normal (Arr conds) ->
  forallb readable conds = false ->
  convertQueryToDomain query = Throw TypeError.
Proof.
  intros Gl Gc R. unfold convertQueryToDomain.
  rewrite Gl, Gc. cbn [bind truthy negb].
  change (get (Arr conds) "length")
    with (Normal (Num (Z.of_nat (List.length conds)))).
  cbn [bind]. rewrite is_num_length_0, is_num_length_1.
  destruct conds as [|c [|c' rest]]; cbn [List.length Nat.eqb].
  - discriminate.
  - cbn [get_index nth bind]. simpl in R. rewrite andb_true_r in R.
    destruct c; try discriminate; reflexivity.
  - unfold push_conditions, forEach. now apply each_tuples_throw.
Qed.

Lemma array_conditions_validate (query : value) (conds : list value) :
  get query "conditions" = Normal (Arr conds) ->
  conds <> [] ->
  nothing_to_search query = Normal false.
Proof.
  intros Gc NE. unfold nothing_to_search.
  destruct query as [| |b|n|s|elems|props]; try discriminate.
  cbn [truthy negb]. rewrite Gc. cbn [bind truthy negb].
  change (get (Arr conds) "length")
    with (Normal (Num (Z.of_nat (List.length conds)))).
  cbn [bind]. rewrite is_num_length_0.
  destruct conds; [congruence | reflexivity].
Qed.

(** X1: over an array of conditions the compiler returns exactly when every
    element can be read; one [undefined] or [null] element, wherever it
    stands, makes the call throw a TypeError. *)
Theorem array_compiles_iff_readable (query logic : value) (conds : list value) :
  get query "logic" = Normal logic ->
  get query "conditions" = Normal (Arr conds) ->
  (forallb readable conds = true ->
   exists d, convertQueryToDomain query = Normal d)
  /\ (forallb readable conds = false ->
      convertQueryToDomain query = Throw TypeError).
Proof.
  intros Gl Gc. split.
  - intros R. rewrite (convertQueryToDomain_array query _ _ Gl Gc R).
    eexists; reflexivity.
  - intros R. exact (unreadable_array_throws query logic conds Gl Gc R).
Qed.

Lemma array_compiles_iff_readable_witness :
  convertQueryToDomain (group_lit "OR" [is_active; Null; in_qatar])
  = Throw TypeError.
Proof.
  apply (proj2 (array_compiles_iff_readable
                  (group_lit "OR" [is_active; Null; in_qatar]) (Str "OR")
                  [is_active; Null; in_qatar] eq_refl eq_refl)).
  reflexivity.
Defined.

(** X2: a logic that is neither ["OR"] nor ["NOT"] (another word, another
    case, no logic at all) is compiled as a conjunction: the tuples alone. *)
Theorem unknown_logic_is_conjunction (query logic : value)
    (conds : list value) :
  get query "logic" = Normal logic ->
  get query "conditions" = Normal (Arr conds) ->
  forallb readable conds = true ->
  is_str logic "OR" = false ->
  is_str logic "NOT" = false ->
  convertQueryToDomain query = Normal (map triple conds).
Proof.
  intros Gl Gc R NO NN.
  rewrite (convertQueryToDomain_array query _ _ Gl Gc R).
  unfold markers. rewrite NO, NN.
  destruct conds as [|c [|c' rest]]; reflexivity.
Qed.

Lemma unknown_logic_is_conjunction_witness :
  convertQueryToDomain lower_case_or = Normal [triple in_qatar; triple in_canada]
  /\ convertQueryToDomain no_logic = Normal [triple in_qatar; triple in_canada].
Proof.
  split.
  - apply (unknown_logic_is_conjunction lower_case_or (Str "or")
             [in_qatar; in_canada]); reflexivity.
  - apply (unknown_logic_is_conjunction no_logic Undefined
             [in_qatar; in_canada]); reflexivity.
Defined.

(** X3: a NOT group of N >= 2 leaf conditions compiles to one ["!"] followed
    by the N tuples in input order. *)
Theorem not_marker_then_operands (query : value) (conds : list value) :
  get query "logic" = Normal (Str "NOT") ->
  get query "conditions" = Normal (Arr conds) ->
  forallb is_leaf conds = true ->
  2 <= List.length conds ->
  convertQueryToDomain query = Normal (Str "!" :: map triple conds).
Proof. exact (not_of_many query conds). Qed.

Lemma not_marker_then_operands_witness :
  convertQueryToDomain (group_lit "NOT" [email_unset; in_qatar])
  = Normal [Str "!"; Arr [Str "email"; Str "="; Bool false];
            Arr [Str "country_id"; Str "="; Num 186]].
Proof.
  apply (not_marker_then_operands (group_lit "NOT" [email_unset; in_qatar])
           [email_unset; in_qatar]);
    [reflexivity | reflexivity | reflexivity | simpl; lia].
Defined.

(** X4: on a query one can read properties from, the compiled filter is
    empty exactly when the entry points' validation would reject the query:
    the check and the compiler agree on what "no conditions" means. *)
Theorem empty_filter_iff_nothing_to_search (query : value) :
  readable query = true ->
  (convertQueryToDomain query = Normal []
   <-> nothing_to_search query = Normal true).
Proof.
  intros R. split.
  - intros C. destruct (nothing_to_search query) as [[|]|e] eqn:V.
    + reflexivity.
    + now destruct (validated_domain_not_empty _ _ V C).
    + exfalso. revert V. unfold nothing_to_search.
      destruct (negb (truthy query)); [discriminate|].
      destruct (get query "conditions") as [c|] eqn:Gc;
        [|destruct query; discriminate].
      cbn [bind]. destruct (negb (truthy c)) eqn:Tc; [discriminate|].
      destruct c; try discriminate; simpl; discriminate.
  - unfold nothing_to_search, convertQueryToDomain.
    destruct (get query "logic") as [logic|] eqn:Gl;
      [|destruct query; discriminate].
    destruct (get query "conditions") as [c|] eqn:Gc;
      [|destruct query; discriminate].
    cbn [bind].
    destruct (negb (truthy query)) eqn:Tq.
    + intros _.
      assert (c = Undefined) as ->; [|reflexivity].
      destruct query; try discriminate; simpl in Gc; inversion Gc;
        reflexivity.
    + destruct (negb (truthy c)); [reflexivity|].
      destruct (get c "length") as [len|]; [|discriminate]. cbn [bind].
      intros H. inversion H as [H0]. now rewrite H0.
Qed.

Lemma empty_filter_iff_nothing_to_search_witness :
  convertQueryToDomain (Obj [("logic", Str "OR")]) = Normal []
  <-> nothing_to_search (Obj [("logic", Str "OR")]) = Normal true.
Proof.
  apply (empty_filter_iff_nothing_to_search (Obj [("logic", Str "OR")])).
  reflexivity.
Defined.

(** ** Further properties of the recursive compiler *)

(** X5: a group that holds one nested group compiles to what the nested
    group compiles to; its own logic, NOT included, leaves no trace. *)
Theorem single_nested_group_is_transparent (queryGroup logic g : value) :
  get queryGroup "logic" = Normal logic ->
  get queryGroup "conditions" = Normal (Arr [g]) ->
  is_nested g = true ->
  convertComplexQueryToDomain queryGroup = convertComplexQueryToDomain g.
Proof.
  intros Gl Gc Ng.
  exact (convertComplex_first_is_nested queryGroup logic g [] Gl Gc Ng).
Qed.

Lemma single_nested_group_is_transparent_witness :
  convertComplexQueryToDomain wrapped_group
  = convertComplexQueryToDomain active_in_qatar.
Proof.
  apply (single_nested_group_is_transparent wrapped_group (Str "NOT")
           active_in_qatar); reflexivity.
Defined.

Lemma QueryGroups_compile (subs : list value) :
  Forall QueryGroup subs ->
  exists ds,
    Forall2 (fun g d => convertComplexQueryToDomain g = Normal d) subs ds.
Proof.
  induction 1 as [|x l Hx _ [ds Hds]]; [exists []; constructor|].
  destruct (QueryGroup_compiles (S (size x)) x) as [d Hd]; [lia|exact Hx|].
  exists (d :: ds). now constructor.
Qed.

(** X6: over k >= 2 nested groups, logic NOT puts one ["!"] before the
    concatenated sub-results, and any logic other than OR and NOT puts
    nothing: the sub-results are simply concatenated in input order. *)
Theorem nested_groups_by_logic (queryGroup logic : value) (subs : list value) :
  get queryGroup "logic" = Normal logic ->
  get queryGroup "conditions" = Normal (Arr subs) ->
  Forall QueryGroup subs ->
  2 <= List.length subs ->
  exists ds,
    Forall2 (fun g d => convertComplexQueryToDomain g = Normal d) subs ds
    /\ (is_str logic "NOT" = true ->
        convertComplexQueryToDomain queryGroup
        = Normal (Str "!" :: List.concat ds))
    /\ (is_str logic "OR" = false -> is_str logic "NOT" = false ->
        convertComplexQueryToDomain queryGroup = Normal (List.concat ds)).
Proof.
  intros Gl Gc Gs N.
  destruct (QueryGroups_compile subs Gs) as [ds Hds].
  exists ds. split; [exact Hds|].
  destruct subs as [|g [|g' rest]]; simpl in N; try lia.
  rewrite (convertComplex_first_is_nested queryGroup logic g (g' :: rest)
             Gl Gc);
    [| apply QueryGroup_is_nested; now inversion Gs].
  rewrite (each_groups _ _ _ Hds). unfold markers. split.
  - intros NN. destruct logic as [| |b|n|s|elems|props]; try discriminate.
    simpl in NN. apply String.eqb_eq in NN. subst s. reflexivity.
  - intros NO NN. now rewrite NO, NN.
Qed.

Lemma nested_groups_by_logic_witness :
  exists ds,
    Forall2 (fun g d => convertComplexQueryToDomain g = Normal d)
      [active_in_qatar; reachable_elsewhere] ds
    /\ (is_str (Str "NOT") "NOT" = true ->
        convertComplexQueryToDomain
          (group_lit "NOT" [active_in_qatar; reachable_elsewhere])
        = Normal (Str "!" :: List.concat ds))
    /\ (is_str (Str "NOT") "OR" = false -> is_str (Str "NOT") "NOT" = false ->
        convertComplexQueryToDomain
          (group_lit "NOT" [active_in_qatar; reachable_elsewhere])
        = Normal (List.concat ds)).
Proof.
  apply (nested_groups_by_logic
           (group_lit "NOT" [active_in_qatar; reachable_elsewhere]) (Str "NOT")
           [active_in_qatar; reachable_elsewhere]);
    [reflexivity | reflexivity | | simpl; lia].
  repeat apply Forall_cons; try apply Forall_nil;
    (eapply QG_leaves;
     [reflexivity | reflexivity | reflexivity | discriminate | reflexivity]).
Defined.

(** An object without [conditions] compiles, recursively, to nothing. *)
Lemma no_conditions_compile_to_nothing (c : value) :
  is_object c = true -> lacks "conditions" c = true ->
  convertComplexQueryToDomain c = Normal [].
Proof.
  intros O L. rewrite convertComplexQueryToDomain_unfold.
  destruct c as [| |b|n|s|elems|props]; try discriminate.
  unfold convertComplex_step.
  change (get (Obj props) "logic") with (Normal (lookup "logic" props)).
  change (get (Obj props) "conditions")
    with (Normal (lookup "conditions" props)).
  cbn [bind]. unfold lacks in L. apply negb_true_iff in L.
  now rewrite (lookup_absent _ _ L).
Qed.

Lemma each_after_group (rest : list value) (domain : list value) :
  forallb (fun c => is_object c && lacks "conditions" c) rest = true ->
  each (fun domain group =>
          groupDomain <- convertComplexQueryToDomain group ;;
          Normal (domain ++ groupDomain))
    rest domain
  = Normal domain.
Proof.
  revert domain. induction rest as [|c rest IH]; intros domain H; simpl;
    [reflexivity|].
  simpl in H. apply andb_prop in H as [Hc Hr]. apply andb_prop in Hc as [O L].
  rewrite (no_conditions_compile_to_nothing c O L). cbn [bind].
  rewrite app_nil_r. now apply IH.
Qed.

(** X7: when the first element of [conditions] is a nested group, the
    elements after it that are plain conditions (objects without
    [conditions]) add nothing to the filter: under OR they are counted in the
    ["|"] markers, and their tuples are missing. *)
Theorem leaves_after_a_group_are_dropped (queryGroup g : value)
    (rest d : list value) :
  get queryGroup "logic" = Normal (Str "OR") ->
  get queryGroup "conditions" = Normal (Arr (g :: rest)) ->
  is_nested g = true ->
  convertComplexQueryToDomain g = Normal d ->
  rest <> [] ->
  forallb (fun c => is_object c && lacks "conditions" c) rest = true ->
  convertComplexQueryToDomain queryGroup
  = Normal (repeat (Str "|") (List.length rest) ++ d).
Proof.
  intros Gl Gc Ng Cg NE L.
  rewrite (convertComplex_first_is_nested queryGroup (Str "OR") g rest
             Gl Gc Ng).
  destruct rest as [|c rest']; [congruence|].
  remember (c :: rest') as rest eqn:E.
  change (each ?f (g :: rest) ?s) with (bind (f s g) (each f rest)).
  cbv beta. rewrite Cg. cbn [bind]. rewrite (each_after_group _ _ L).
  rewrite markers_or. cbn [List.length]. do 2 f_equal. f_equal. lia.
Qed.

Lemma leaves_after_a_group_are_dropped_witness :
  convertComplexQueryToDomain group_then_leaves
  = Normal [Str "|"; Str "|";
            Arr [Str "active"; Str "="; Bool true];
            Arr [Str "country_id"; Str "="; Num 186]].
Proof.
  apply (leaves_after_a_group_are_dropped group_then_leaves active_in_qatar
           [in_canada; email_unset]
           [Arr [Str "active"; Str "="; Bool true];
            Arr [Str "country_id"; Str "="; Num 186]]);
    [reflexivity | reflexivity | reflexivity | reflexivity | discriminate
    | reflexivity].
Defined.

(** ** Further properties of the entry points *)

Section Search_runs.

Variable engine_message : exn -> string.
Variable count_reply : request -> reply Z.
Variable read_reply : request -> reply (option (list value)).
Variable JSON_stringify : payload -> string.

Lemma search_leaves_search_log {R : Type} (wrap : payload -> R)
    (input : tool_input) :
  search_log input
    (fst (search engine_message count_reply read_reply wrap input)).
Proof.
  unfold search_log, search, try_catch, and_then, engine, compile, call, done.
  destruct (nothing_to_search (query input)) as [[|]|];
    try (left; reflexivity).
  simpl app.
  destruct (convertQueryToDomain (query input)) as [d|] eqn:C;
    [|right; left; reflexivity].
  right. right. exists d. split; [reflexivity|]. simpl.
  match goal with
  | |- context [count_reply ?q] => destruct (count_reply q) as [total|message]
  end; [|left; reflexivity].
  destruct (count_only input); [left; reflexivity|]. simpl.
  match goal with
  | |- context [read_reply ?q] => destruct (read_reply q) as [records|message]
  end; right; reflexivity.
Qed.

(** X8: whatever the input and whatever the remote end answers, an entry
    point compiles the query at most once and calls the remote end at most
    twice, first to count and then to read, both times with the domain the
    compiler returned for the query. *)
Theorem entry_points_leave_search_logs (input : tool_input) :
  search_log input
    (fst (smart_search_execute engine_message count_reply read_reply input))
  /\ search_log input
       (fst (smartSearch engine_message count_reply read_reply JSON_stringify
               input)).
Proof. split; apply search_leaves_search_log. Qed.

Lemma search_count_only {R : Type} (wrap : payload -> R) (input : tool_input) :
  count_only input = true ->
  forallb (fun e => negb (is_read e))
    (fst (search engine_message count_reply read_reply wrap input)) = true
  /\ forall d total,
       nothing_to_search (query input) = Normal false ->
       convertQueryToDomain (query input) = Normal d ->
       count_reply (search_count (input_connection input) (model input) d)
       = Answer total ->
       search engine_message count_reply read_reply wrap input
       = ([Compiled (query input);
           Called (search_count (input_connection input) (model input) d)],
          wrap (Found [] 0 total (model input) (query input) d (offset input)
                  (limit input) false)).
Proof.
  intros CO. unfold search, try_catch, and_then, engine, compile, call, done.
  rewrite CO. split.
  - destruct (nothing_to_search (query input)) as [[|]|]; try reflexivity.
    simpl app.
    destruct (convertQueryToDomain (query input)) as [d|]; [|reflexivity].
    simpl.
    match goal with
    | |- context [count_reply ?q] => destruct (count_reply q)
    end; reflexivity.
  - intros d total V C A. rewrite V, C. simpl. now rewrite A.
Qed.

(** X9: with [count_only] set, neither entry point ever asks the remote end
    for records; once the count is answered they report it as [total_count]
    beside an empty page: no records, a count of 0 and no further page. *)
Theorem count_only_never_reads (input : tool_input) :
  count_only input = true ->
  (forallb (fun e => negb (is_read e))
     (fst (smart_search_execute engine_message count_reply read_reply input))
   = true
   /\ forallb (fun e => negb (is_read e))
        (fst (smartSearch engine_message count_reply read_reply JSON_stringify
                input))
      = true)
  /\ forall d total,
       nothing_to_search (query input) = Normal false ->
       convertQueryToDomain (query input) = Normal d ->
       count_reply (search_count (input_connection input) (model input) d)
       = Answer total ->
       let log := [Compiled (query input);
                   Called (search_count (input_connection input) (model input)
                             d)] in
       let found := Found [] 0 total (model input) (query input) d
                      (offset input) (limit input) false in
       smart_search_execute engine_message count_reply read_reply input
       = (log, found)
       /\ smartSearch engine_message count_reply read_reply JSON_stringify
            input
          = (log, as_text JSON_stringify found).
Proof.
  intros CO. unfold smart_search_execute, smartSearch. split.
  - split; apply (search_count_only _ _ CO).
  - intros d total V C A. split.
    + exact (proj2 (search_count_only (fun p => p) input CO) d total V C A).
    + exact (proj2 (search_count_only (as_text JSON_stringify) input CO)
               d total V C A).
Qed.

Lemma search_count_fails {R : Type} (wrap : payload -> R) (input : tool_input)
    (d : list value) (message : option string) :
  nothing_to_search (query input) = Normal false ->
  convertQueryToDomain (query input) = Normal d ->
  count_reply (search_count (input_connection input) (model input) d)
  = Fails message ->
  search engine_message count_reply read_reply wrap input
  = ([Compiled (query input);
      Called (search_count (input_connection input) (model input) d)],
     wrap (Failed (errorMessage engine_message (Remote message))
             (model input) (query input))).
Proof.
  intros V C A. unfold search, try_catch, and_then, engine, compile, call, done.
  rewrite V, C. simpl. now rewrite A.
Qed.

(** When the counting call fails, the search stops there: the records
    are never asked for, and the answer is the failure object carrying the
    client's message (or 'Unknown error'), the model and the query. *)
Theorem failed_count_stops_the_search (input : tool_input) (d : list value)
    (message : option string) :
  nothing_to_search (query input) = Normal false ->
  convertQueryToDomain (query input) = Normal d ->
  count_reply (search_count (input_connection input) (model input) d)
  = Fails message ->
  let log := [Compiled (query input);
              Called (search_count (input_connection input) (model input) d)] in
  let failed :=
    Failed (match message with Some m => m | None => "Unknown error" end)
      (model input) (query input) in
  smart_search_execute engine_message count_reply read_reply input
  = (log, failed)
  /\ smartSearch engine_message count_reply read_reply JSON_stringify input
     = (log, as_text JSON_stringify failed).
Proof.
  intros V C A. unfold smart_search_execute, smartSearch.
  rewrite !(search_count_fails _ _ _ _ V C A).
  destruct message; split; reflexivity.
Qed.

Lemma search_compile_throws {R : Type} (wrap : payload -> R)
    (input : tool_input) (e : exn) :
  nothing_to_search (query input) = Normal false ->
  convertQueryToDomain (query input) = Throw e ->
  search engine_message count_reply read_reply wrap input
  = ([Compiled (query input)],
     wrap (Failed (engine_message e) (model input) (query input))).
Proof.
  intros V C. unfold search, try_catch, and_then, engine, compile, call, done.
  now rewrite V, C.
Qed.

(** X10: a query that passes the validation but holds an [undefined] or
    [null] element among its conditions makes the compiler throw; the entry
    points catch it, call nothing remote and answer the failure object with
    the engine's message, the model and the query. *)
Theorem unreadable_condition_is_reported (input : tool_input) (logic : value)
    (conds : list value) :
  get (query input) "logic" = Normal logic ->
  get (query input) "conditions" = Normal (Arr conds) ->
  forallb readable conds = false ->
  let failed :=
    Failed (engine_message TypeError) (model input) (query input) in
  smart_search_execute engine_message count_reply read_reply input
  = ([Compiled (query input)], failed)
  /\ smartSearch engine_message count_reply read_reply JSON_stringify input
     = ([Compiled (query input)], as_text JSON_stringify failed).
Proof.
  intros Gl Gc R.
  pose proof (unreadable_array_throws _ _ _ Gl Gc R) as C.
  assert (V : nothing_to_search (query input) = Normal false).
  { apply (array_conditions_validate _ conds Gc). now intros ->. }
  unfold smart_search_execute, smartSearch.
  rewrite !(search_compile_throws _ _ _ V C). split; reflexivity.
Qed.

End Search_runs.

Lemma count_only_never_reads_witness :
  smart_search_execute v8_message three_partners_count three_partners_read
    (count_partners (group_lit "OR" [in_qatar; in_canada]))
  = ([Compiled (group_lit "OR" [in_qatar; in_canada]);
      Called (search_count some_connection "res.partner"
                [Str "|"; triple in_qatar; triple in_canada])],
     Found [] 0 3 "res.partner" (group_lit "OR" [in_qatar; in_canada])
       [Str "|"; triple in_qatar; triple in_canada] 0 20 false).
Proof.
  apply (proj2 (count_only_never_reads v8_message three_partners_count
                  three_partners_read tag_only
                  (count_partners (group_lit "OR" [in_qatar; in_canada]))
                  eq_refl)
           [Str "|"; triple in_qatar; triple in_canada] 3%Z);
    reflexivity.
Defined.

Lemma failed_count_stops_the_search_witness :
  smart_search_execute v8_message unreachable_count three_partners_read
    (search_partners (group_lit "AND" [is_active]))
  = ([Compiled (group_lit "AND" [is_active]);
      Called (search_count some_connection "res.partner" [triple is_active])],
     Failed "JSON-RPC call failed: connect ECONNREFUSED" "res.partner"
       (group_lit "AND" [is_active])).
Proof.
  apply (failed_count_stops_the_search v8_message unreachable_count
           three_partners_read tag_only
           (search_partners (group_lit "AND" [is_active]))
           [triple is_active]
           (Some "JSON-RPC call failed: connect ECONNREFUSED"));
    reflexivity.
Defined.

Lemma unreadable_condition_is_reported_witness :
  smart_search_execute v8_message three_partners_count three_partners_read
    (search_partners (group_lit "AND" [is_active; Null]))
  = ([Compiled (group_lit "AND" [is_active; Null])],
     Failed "Cannot read properties of undefined" "res.partner"
       (group_lit "AND" [is_active; Null])).
Proof.
  apply (unreadable_condition_is_reported v8_message three_partners_count
           three_partners_read tag_only
           (search_partners (group_lit "AND" [is_active; Null])) (Str "AND")
           [is_active; Null]);
    reflexivity.
Defined.

(** ** The JSON-RPC client *)

Lemma append_nil_r (s : string) : (s ++ "")%string = s.
Proof. induction s as [|c s IH]; simpl; [reflexivity | now rewrite IH]. Qed.

Lemma prefix_append (p s : string) : String.prefix p (p ++ s)%string = true.
Proof.
  induction p as [|c p IH]; simpl; [now destruct s|].
  destruct (ascii_dec c c); [exact IH | contradiction].
Qed.

Lemma strip_splits (url : string) :
  exists n, url = (strip_trailing_slashes url ++ slashes n)%string.
Proof.
  induction url as [|c rest [n IH]]; [exists 0; reflexivity|].
  simpl. destruct (strip_trailing_slashes rest) as [|d t] eqn:St.
  - simpl in IH. destruct (Ascii.eqb_spec c "/") as [->|N].
    + exists (S n). simpl. now rewrite <- IH.
    + exists n. simpl. now rewrite <- IH.
  - exists n. simpl. simpl in IH. now rewrite <- IH.
Qed.

Lemma strip_idempotent (url : string) :
  strip_trailing_slashes (strip_trailing_slashes url)
  = strip_trailing_slashes url.
Proof.
  induction url as [|c rest IH]; [reflexivity|].
  simpl. destruct (strip_trailing_slashes rest) as [|d t] eqn:St.
  - destruct (Ascii.eqb_spec c "/") as [->|N]; [reflexivity|].
    simpl. destruct (Ascii.eqb_spec c "/"); [contradiction | reflexivity].
  - change (strip_trailing_slashes (String c (String d t)))
      with (match strip_trailing_slashes (String d t) with
            | EmptyString => if Ascii.eqb c "/" then EmptyString
                             else String c EmptyString
            | stripped => String c stripped
            end).
    now rewrite IH.
Qed.

Lemma strip_has_no_trailing_slash (url s : string) :
  strip_trailing_slashes url <> (s ++ "/")%string.
Proof.
  revert s. induction url as [|c rest IH]; intros s.
  - destruct s; discriminate.
  - simpl. destruct (strip_trailing_slashes rest) as [|d t] eqn:St.
    + destruct (Ascii.eqb_spec c "/") as [->|N].
      * destruct s; discriminate.
      * destruct s as [|e [|f s']]; simpl; try discriminate.
        intros H. inversion H. contradiction.
    + destruct s as [|e s']; simpl; [discriminate|].
      intros H. inversion H as [[E1 E2]]. exact (IH s' E2).
Qed.

(** X11: stripping removes the slashes that end a URL and nothing else: what
    is left does not end with a slash, the URL is what is left followed by
    slashes only, and stripping twice changes nothing more. *)
Theorem strip_trailing_slashes_spec (url : string) :
  (exists n, url = (strip_trailing_slashes url ++ slashes n)%string)
  /\ (forall s, strip_trailing_slashes url <> (s ++ "/")%string)
  /\ strip_trailing_slashes (strip_trailing_slashes url)
     = strip_trailing_slashes url.
Proof.
  split; [apply strip_splits|].
  split; [intros s; apply strip_has_no_trailing_slash | apply strip_idempotent].
Qed.

Section Client_properties.

Variable engine_message : exn -> string.
Variable to_string : value -> string.
Variable invalid_url_message : string.
Variable well_formed_url : string -> bool.
Variable request : string -> string -> string -> list value -> reply value.

Let client_call :=
  OdooJsonRpcClient_call engine_message to_string invalid_url_message
    well_formed_url request.


(** X12: whatever goes wrong in a call (the transport rejecting, with an
    Error or with anything else, the response carrying an error, the response
    being unreadable), the caller gets an Error with a message, never a bare
    value; and unless the endpoint is not a URL at all, the message starts
    with 'JSON-RPC call failed: '. *)
Theorem call_fails_with_a_message (url service method : string)
    (args : list value) (failure : option string) :
  client_call url service method args = Fails failure ->
  exists message,
    failure = Some message
    /\ (well_formed_url (strip_trailing_slashes url ++ "/jsonrpc")%string = true ->
        String.prefix "JSON-RPC call failed: " message = true).
Proof.
  unfold client_call, OdooJsonRpcClient_call.
  destruct (well_formed_url _) eqn:W; cbn [negb].
  - destruct (call_attempt _ _ _ _ _ _ _) as [r|[m|]]; intros H.
    + discriminate.
    + exists ("JSON-RPC call failed: " ++ m)%string.
      split; [congruence | intros _; apply prefix_append].
    + exists "JSON-RPC call failed: Unknown error".
      split; [congruence | reflexivity].
  - intros H. exists invalid_url_message. split; [congruence | discriminate].
Qed.

(** An error object in the response is reported, not returned: the
    call fails with 'JSON-RPC call failed: Odoo Error <code>: <message>',
    whatever result the response holds beside it. *)
Theorem response_error_fails_the_call (url service method : string)
    (args : list value) (response error : value) :
  well_formed_url (strip_trailing_slashes url ++ "/jsonrpc")%string = true ->
  request (strip_trailing_slashes url ++ "/jsonrpc")%string service method args
  = Answer response ->
  get response "error" = Normal error ->
  truthy error = true ->
  client_call url service method args
  = Fails (Some ("JSON-RPC call failed: Odoo Error "
                 ++ to_string (prop error "code") ++ ": "
                 ++ to_string (prop error "message"))%string).
Proof.
  intros W Rq Ge T. unfold client_call, OdooJsonRpcClient_call, call_attempt.
  now rewrite W, Rq, Ge, T.
Qed.







End Client_properties.

Lemma call_fails_with_a_message_witness :
  exists message,
    Some "JSON-RPC call failed: Odoo Error 200: Access Denied" = Some message
    /\ (any_url (strip_trailing_slashes "http://localhost:8069//" ++ "/jsonrpc")%string
        = true ->
        String.prefix "JSON-RPC call failed: " message = true).
Proof.
  apply (call_fails_with_a_message v8_message show_demo "Invalid URL" any_url
           refusing_request "http://localhost:8069//" "common" "version" []).
  reflexivity.
Defined.

Lemma response_error_fails_the_call_witness :
  OdooJsonRpcClient_call v8_message show_demo "Invalid URL" any_url
    refusing_request "http://localhost:8069//" "common" "version" []
  = Fails (Some "JSON-RPC call failed: Odoo Error 200: Access Denied").
Proof.
  apply (response_error_fails_the_call v8_message show_demo "Invalid URL"
           any_url refusing_request "http://localhost:8069//" "common"
           "version" []
           (Obj [("error", Obj [("code", Num 200);
                                ("message", Str "Access Denied")])])
           (Obj [("code", Num 200); ("message", Str "Access Denied")]));
    reflexivity.
Defined.



(** ** The update and delete tools *)

Section Record_tool_properties.

Variable show_number : Z -> string.
Variable remote_value : odoo_call -> reply value.
Variable remote_records : odoo_call -> reply (option (list value)).
Variable JSON_stringify_value : value -> string.

Let update_execute :=
  update_record_execute show_number remote_value remote_records.
Let update_callback :=
  updateRecord show_number remote_value remote_records JSON_stringify_value.
Let delete_execute :=
  delete_record_execute show_number remote_value remote_records.
Let delete_callback :=
  deleteRecord show_number remote_value remote_records JSON_stringify_value.

(** X16: an update without fields (no updates, or an object with no key)
    is refused with NO_UPDATES_SPECIFIED by both entry points before anything
    is sent to the server. *)
Theorem update_without_fields_calls_nothing (input : update_input) :
  truthy (up_updates input) = false \/ Object_keys (up_updates input) = [] ->
  update_execute input = ([], no_updates_object)
  /\ update_callback input
     = ([], as_text_value JSON_stringify_value no_updates_object).
Proof.
  intros H.
  unfold update_execute, update_callback, update_record_execute, updateRecord,
    update.
  destruct H as [H|H]; rewrite H; [|rewrite orb_true_r]; split; reflexivity.
Qed.




(** X19: without confirmation the delete tool sends nothing to the server,
    neither the read nor the unlink, and answers CONFIRMATION_REQUIRED. *)
Theorem delete_needs_confirmation (input : delete_input) :
  del_confirmation input = false ->
  fst (delete_execute input) = []
  /\ fst (delete_callback input) = []
  /\ prop (snd (delete_execute input)) "error" = Str "CONFIRMATION_REQUIRED".
Proof.
  intros H.
  unfold delete_execute, delete_callback, delete_record_execute, deleteRecord,
    delete.
  rewrite H. repeat split.
Qed.

(** X20: once confirmed, the delete tool always sends the read and then the
    unlink: a read that fails or finds nothing does not hold the deletion
    back. And it reports success exactly when the unlink was answered with
    [true] itself. *)
Theorem confirmed_delete_always_unlinks (input : delete_input) :
  del_confirmation input = true ->
  let read :=
    Execute (del_connection input) (del_model input) "read"
      [Arr [Num (del_record_id input)];
       Arr [Str "id"; Str "name"; Str "display_name"]] in
  let unlink :=
    Execute (del_connection input) (del_model input) "unlink"
      [Arr [Num (del_record_id input)]] in
  fst (delete_execute input) = [read; unlink]
  /\ fst (delete_callback input) = [read; unlink]
  /\ (prop (snd (delete_execute input)) "success" = Bool true
      <-> remote_value unlink = Answer (Bool true)).
Proof.
  intros H. cbv zeta.
  unfold delete_execute, delete_callback, delete_record_execute, deleteRecord,
    delete.
  rewrite H. cbn [negb].
  destruct (remote_value _) as [deleteResult|thrown].
  - destruct deleteResult as [| |[|]|n|s|elems|props]; cbn [is_true];
      (split; [reflexivity|]); (split; [reflexivity|]);
      (split; [try discriminate | try discriminate]); reflexivity.
  - split; [reflexivity|]. split; [reflexivity|].
    split; [|discriminate].
    unfold delete_failure.
    repeat match goal with
           | |- context [if ?b then _ else _] => destruct b
           end; discriminate.
Qed.

End Record_tool_properties.

Lemma update_without_fields_calls_nothing_witness :
  update_record_execute show_123 always_true no_records update_nothing
  = ([], no_updates_object)
  /\ updateRecord show_123 always_true no_records value_tag update_nothing
     = ([], as_text_value value_tag no_updates_object).
Proof.
  apply (update_without_fields_calls_nothing show_123 always_true no_records
           value_tag update_nothing).
  right. reflexivity.
Defined.

Lemma delete_needs_confirmation_witness :
  fst (delete_record_execute show_123 always_true no_records
         (delete_partner false)) = []
  /\ fst (deleteRecord show_123 always_true no_records value_tag
            (delete_partner false)) = []
  /\ prop (snd (delete_record_execute show_123 always_true no_records
                  (delete_partner false))) "error"
     = Str "CONFIRMATION_REQUIRED".
Proof.
  apply (delete_needs_confirmation show_123 always_true no_records value_tag
           (delete_partner false)).
  reflexivity.
Defined.

Lemma confirmed_delete_always_unlinks_witness :
  fst (delete_record_execute show_123 always_true no_records
         (delete_partner true))
  = [Execute some_connection "res.partner" "read"
       [Arr [Num 123]; Arr [Str "id"; Str "name"; Str "display_name"]];
     Execute some_connection "res.partner" "unlink" [Arr [Num 123]]]
  /\ fst (deleteRecord show_123 always_true no_records value_tag
            (delete_partner true))
     = [Execute some_connection "res.partner" "read"
          [Arr [Num 123]; Arr [Str "id"; Str "name"; Str "display_name"]];
        Execute some_connection "res.partner" "unlink" [Arr [Num 123]]]
  /\ (prop (snd (delete_record_execute show_123 always_true no_records
                   (delete_partner true))) "success" = Bool true
      <-> always_true
            (Execute some_connection "res.partner" "unlink" [Arr [Num 123]])
          = Answer (Bool true)).
Proof.
  apply (confirmed_delete_always_unlinks show_123 always_true no_records
           value_tag (delete_partner true)).
  reflexivity.
Defined.

Example update_runs :
  update_record_execute show_123 always_true
    (fun _ => Answer (Some [Obj [("id", Num 123); ("name", Str "John Updated")]]))
    rename_partner
  = ([Execute some_connection "res.partner" "write"
        [Arr [Num 123]; Obj [("name", Str "John Updated")]];
      Execute some_connection "res.partner" "read"
        [Arr [Num 123]; Arr [Str "id"; Str "name"]]],
     Obj [("success", Bool true); ("model", Str "res.partner");
          ("updated_record",
           Obj [("id", Num 123); ("name", Str "John Updated")])]).
Proof. reflexivity. Qed.

(** ** The circuit breaker *)

Section Breaker_properties.

Variables A E : Type.

Lemma use_keeps_settings (b : CircuitBreaker) (u : breaker_use A E) :
  threshold (use_breaker b u) = threshold b
  /\ timeout (use_breaker b u) = timeout b.
Proof.
  destruct u as [now fn later|]; [|now split].
  unfold use_breaker, CircuitBreaker_execute.
  destruct (breaker_state_eqb (state b) open);
    [destruct (Z.ltb _ _)|]; cbn [fst];
    try (destruct fn; [destruct (breaker_state_eqb _ _)|]); now split.
Qed.

Lemma use_keeps_invariant (b : CircuitBreaker) (u : breaker_use A E) :
  breaker_invariant b -> breaker_invariant (use_breaker b u).
Proof.
  intros (F & H & O). destruct u as [now fn later|].
  - unfold use_breaker, CircuitBreaker_execute, breaker_invariant.
    destruct (state b) eqn:Sb; [|specialize (O eq_refl)|congruence];
      cbn [breaker_state_eqb].
    + destruct fn; rewrite ?Sb; cbn [breaker_state_eqb fst state failures
                                     threshold]; rewrite ?Sb.
      * repeat split; try discriminate; try congruence; assumption.
      * destruct (Z.leb_spec (threshold b) (failures b + 1));
          rewrite ?Sb; repeat split; try discriminate; try congruence; lia.
    + destruct (Z.ltb _ _).
      * destruct fn; cbn [state set_state failures fst breaker_state_eqb
                          threshold].
        -- repeat split; try discriminate; lia.
        -- destruct (Z.leb_spec (threshold b) (failures b + 1)); [|lia].
           repeat split; try discriminate; lia.
      * cbn [fst]. rewrite Sb.
        repeat split; try discriminate; try assumption. intros _; assumption.
  - unfold use_breaker, CircuitBreaker_reset, breaker_invariant. simpl.
    repeat split; try discriminate; lia.
Qed.

Lemma uses_keep_invariant (uses : list (breaker_use A E)) (b : CircuitBreaker) :
  breaker_invariant b ->
  breaker_invariant (fold_left use_breaker uses b)
  /\ threshold (fold_left use_breaker uses b) = threshold b
  /\ timeout (fold_left use_breaker uses b) = timeout b.
Proof.
  revert b. induction uses as [|u rest IH]; intros b I; simpl; [now split|].
  destruct (IH (use_breaker b u) (use_keeps_invariant b u I)) as (I' & T & O).
  destruct (use_keeps_settings b u) as [T' O'].
  split; [exact I'|]. split; congruence.
Qed.

(** X21: however a breaker is used from its creation on (calls that succeed
    or fail at any times, resets), between two uses it is never half-open,
    its failure count is never negative, and it is open only with at least
    [threshold] failures counted. *)
Theorem breaker_is_open_only_past_threshold (limit wait : Z)
    (uses : list (breaker_use A E)) :
  let b := fold_left use_breaker uses (new_CircuitBreaker limit wait) in
  (0 <= failures b)%Z
  /\ state b <> half_open
  /\ (state b = open -> (limit <= failures b)%Z).
Proof.
  cbv zeta.
  destruct (uses_keep_invariant uses (new_CircuitBreaker limit wait))
    as ((F & H & O) & T & _).
  - unfold breaker_invariant. simpl. repeat split; try discriminate; lia.
  - simpl in T. rewrite T in O. split; [exact F|]. split; [exact H | exact O].
Qed.

Lemma closed_uses_count (uses : list (breaker_use A E)) (b : CircuitBreaker) :
  state b = closed ->
  forallb (fun u => negb (is_reset u)) uses = true ->
  (failures b + Z.of_nat (List.length (filter is_rejection uses))
   < threshold b)%Z ->
  let b' := fold_left use_breaker uses b in
  state b' = closed
  /\ failures b'
     = (failures b + Z.of_nat (List.length (filter is_rejection uses)))%Z
  /\ threshold b' = threshold b /\ timeout b' = timeout b.
Proof.
  cbv zeta. revert b. induction uses as [|u rest IH]; intros b Sb NR Lt.
  - simpl. repeat split; [assumption | lia].
  - simpl in NR. apply andb_prop in NR as [Nu NR].
    destruct u as [now fn later|]; [|discriminate].
    cbn [fold_left]. unfold use_breaker at 2 4 6 8.
    unfold CircuitBreaker_execute. rewrite Sb. cbn [breaker_state_eqb].
    destruct fn as [a|e]; cbn [fst filter is_rejection] in *.
    + rewrite Sb. cbn [breaker_state_eqb fst].
      destruct (IH b Sb NR Lt) as (S' & F' & T' & O'). now repeat split.
    + cbn [List.length] in Lt.
      destruct (Z.leb_spec (threshold b) (failures b + 1)); [lia|].
      match goal with
      | |- context [fold_left use_breaker rest ?x] =>
          destruct (IH x) as (S' & F' & T' & O')
      end; cbn [state failures threshold timeout]; try assumption; try lia.
      cbn [state failures threshold timeout] in *.
      repeat split; try assumption. cbn [List.length]. lia.
Qed.

(** X22: the breaker counts every failure since its creation, not the
    consecutive ones: successful calls in between leave the count as it is.
    As long as fewer than [threshold] calls have failed it stays closed with
    exactly that many failures counted, and the failure that brings the count
    to [threshold] opens it, however many successes came in between. *)
Theorem breaker_counts_all_failures (limit wait : Z)
    (uses : list (breaker_use A E)) (now later : Z) (e : E) :
  forallb (fun u => negb (is_reset u)) uses = true ->
  (Z.of_nat (List.length (filter is_rejection uses)) < limit)%Z ->
  let b := fold_left use_breaker uses (new_CircuitBreaker limit wait) in
  state b = closed
  /\ failures b = Z.of_nat (List.length (filter is_rejection uses))
  /\ (Z.of_nat (List.length (filter is_rejection uses)) = (limit - 1)%Z ->
      CircuitBreaker_execute b now (Rejects (A := A) e) later
      = ({| failures := limit; lastFailureTime := later; state := open;
            threshold := limit; timeout := wait |},
         Ran (Rejects e))).
Proof.
  intros NR Lt. cbv zeta.
  destruct (closed_uses_count uses (new_CircuitBreaker limit wait) eq_refl NR)
    as (Sb & F & T & O); [simpl; lia|].
  simpl in F, T, O. split; [exact Sb|]. split; [exact F|].
  intros Eq. unfold CircuitBreaker_execute. rewrite Sb.
  cbn [breaker_state_eqb]. rewrite F, T, O, Eq.
  replace (limit - 1 + 1)%Z with limit by lia.
  now rewrite Z.leb_refl.
Qed.

(** X23: an open breaker refuses every call made within [timeout]
    milliseconds of the last failure, without running the function and
    without changing; a call made later is let through, and if it succeeds
    the breaker is closed again with no failure counted. *)
Theorem open_breaker_refuses_then_recovers (b : CircuitBreaker) (now later : Z)
    (fn : attempt A E) :
  state b = open ->
  ((now - lastFailureTime b <= timeout b)%Z ->
   CircuitBreaker_execute b now fn later = (b, Unavailable))
  /\ ((timeout b < now - lastFailureTime b)%Z ->
      forall a, fn = Resolves a ->
      CircuitBreaker_execute b now fn later
      = (CircuitBreaker_reset b, Ran (Resolves a))).
Proof.
  intros Sb. unfold CircuitBreaker_execute. rewrite Sb.
  cbn [breaker_state_eqb]. split.
  - intros Le. destruct (Z.ltb_spec (timeout b) (now - lastFailureTime b));
      [lia | reflexivity].
  - intros Lt a ->.
    destruct (Z.ltb_spec (timeout b) (now - lastFailureTime b)); [|lia].
    reflexivity.
Qed.

End Breaker_properties.

(** ** Retries *)

Lemma tries_app {E : Type} (xs ys : list (retry_event E)) :
  tries (xs ++ ys) = tries xs + tries ys.
Proof. unfold tries. now rewrite filter_app, length_app. Qed.

Lemma slept_app {E : Type} (xs ys : list (retry_event E)) :
  slept (xs ++ ys) = (slept xs + slept ys)%Z.
Proof.
  induction xs as [|[n|n e|d] xs IH]; simpl; rewrite ?IH; lia.
Qed.

Section Retry_properties.

Variables A E : Type.
Variable fn : nat -> attempt A E.
Variable maxRetries : Z.
Variable retryDelay : Z.
Variable exponentialBackoff : bool.
Variable onRetry : bool.

Let loop := retry_loop fn maxRetries retryDelay exponentialBackoff onRetry.

(** What one failed attempt that is not the last adds to the events. *)
Let pause (attempt : nat) (error : E) : list (retry_event E) :=
  (if onRetry then [Notified (attempt + 1) error] else [])
    ++ [Slept (if exponentialBackoff
               then (retryDelay * 2 ^ Z.of_nat attempt)%Z
               else retryDelay)].

Lemma pause_counts (attempt : nat) (error : E) :
  tries (pause attempt error) = 0
  /\ slept (pause attempt error)
     = (if exponentialBackoff
        then (retryDelay * 2 ^ Z.of_nat attempt)%Z
        else retryDelay).
Proof. unfold pause. destruct onRetry; simpl; split; try reflexivity; lia. Qed.

Lemma loop_step_rejected (left attempt : nat) (lastError : option E)
    (error : E) :
  fn attempt = Rejects error ->
  loop (S left) attempt lastError
  = (Tried attempt
       :: (if Z.ltb (Z.of_nat attempt) maxRetries then pause attempt error
           else [])
       ++ fst (loop left (S attempt) (Some error)),
     snd (loop left (S attempt) (Some error))).
Proof.
  intros F. unfold loop, pause. cbn [retry_loop]. rewrite F.
  destruct (retry_loop _ _ _ _ _ left (S attempt) (Some error)).
  reflexivity.
Qed.

Lemma pow2_succ (n : nat) : (2 ^ Z.of_nat (S n) = 2 * 2 ^ Z.of_nat n)%Z.
Proof. rewrite Nat2Z.inj_succ, Z.pow_succ_r; lia. Qed.

Lemma loop_until_success (k : nat) :
  forall (left attempt : nat) (lastError : option E) (a : A),
    (forall j, attempt <= j < attempt + k -> exists e, fn j = Rejects e) ->
    fn (attempt + k) = Resolves a ->
    k < left ->
    (Z.of_nat (attempt + k) <= maxRetries)%Z ->
    snd (loop left attempt lastError) = Returned a
    /\ tries (fst (loop left attempt lastError)) = k + 1
    /\ slept (fst (loop left attempt lastError))
       = (if exponentialBackoff
          then retryDelay * (2 ^ Z.of_nat (attempt + k) - 2 ^ Z.of_nat attempt)
          else retryDelay * Z.of_nat k)%Z.
Proof.
  induction k as [|k IH]; intros left attempt lastError a Rj Rs Lt Le.
  - destruct left as [|left]; [lia|]. rewrite Nat.add_0_r in *.
    unfold loop. cbn [retry_loop]. rewrite Rs. cbn [fst snd].
    repeat split. destruct exponentialBackoff; simpl; lia.
  - destruct left as [|left]; [lia|].
    destruct (Rj attempt) as [e Fe]; [lia|].
    rewrite (loop_step_rejected _ _ _ _ Fe). cbn [fst snd].
    destruct (Z.ltb_spec (Z.of_nat attempt) maxRetries); [|lia].
    destruct (IH left (S attempt) (Some e) a) as (R & T & S');
      [intros j Hj; apply Rj; lia
      | now replace (S attempt + k) with (attempt + S k) by lia
      | lia
      | now replace (S attempt + k) with (attempt + S k) by lia |].
    destruct (pause_counts attempt e) as [Pt Ps].
    split; [exact R|]. split.
    + change (Tried attempt :: pause attempt e ++ ?r)
        with ([Tried attempt] ++ pause attempt e ++ r).
      rewrite !tries_app, Pt, T. change (tries [Tried (E := E) attempt]) with 1.
      lia.
    + change (Tried attempt :: pause attempt e ++ ?r)
        with ([Tried attempt] ++ pause attempt e ++ r).
      rewrite !slept_app, Ps, S'.
      replace (S attempt + k) with (attempt + S k) by lia.
      destruct exponentialBackoff; simpl slept.
      * rewrite pow2_succ. lia.
      * lia.
Qed.

Lemma loop_all_rejected (left : nat) :
  forall (attempt : nat) (lastError : option E) (last : E),
    (forall j, attempt <= j <= attempt + left -> exists e, fn j = Rejects e) ->
    fn (attempt + left) = Rejects last ->
    Z.of_nat (attempt + left) = maxRetries ->
    snd (loop (S left) attempt lastError) = Thrown (Some last)
    /\ tries (fst (loop (S left) attempt lastError)) = S left
    /\ slept (fst (loop (S left) attempt lastError))
       = (if exponentialBackoff
          then retryDelay * (2 ^ Z.of_nat (attempt + left)
                             - 2 ^ Z.of_nat attempt)
          else retryDelay * Z.of_nat left)%Z.
Proof.
  induction left as [|left IH]; intros attempt lastError last Rj Rl Eq.
  - rewrite Nat.add_0_r in *.
    rewrite (loop_step_rejected _ _ _ _ Rl). cbn [fst snd].
    destruct (Z.ltb_spec (Z.of_nat attempt) maxRetries); [lia|].
    unfold loop. cbn [retry_loop fst snd app]. repeat split.
    destruct exponentialBackoff; simpl; lia.
  - destruct (Rj attempt) as [e Fe]; [lia|].
    rewrite (loop_step_rejected _ _ _ _ Fe). cbn [fst snd].
    destruct (Z.ltb_spec (Z.of_nat attempt) maxRetries); [|lia].
    destruct (IH (S attempt) (Some e) last) as (R & T & S');
      [intros j Hj; apply Rj; lia
      | now replace (S attempt + left) with (attempt + S left) by lia
      | lia |].
    destruct (pause_counts attempt e) as [Pt Ps].
    split; [exact R|]. split.
    + change (Tried attempt :: pause attempt e ++ ?r)
        with ([Tried attempt] ++ pause attempt e ++ r).
      rewrite !tries_app, Pt, T. change (tries [Tried (E := E) attempt]) with 1.
      lia.
    + change (Tried attempt :: pause attempt e ++ ?r)
        with ([Tried attempt] ++ pause attempt e ++ r).
      rewrite !slept_app, Ps, S'.
      replace (S attempt + left) with (attempt + S left) by lia.
      destruct exponentialBackoff; simpl slept.
      * rewrite pow2_succ. lia.
      * lia.
Qed.

Lemma loop_tries_bound (left : nat) :
  forall (attempt : nat) (lastError : option E),
    tries (fst (loop left attempt lastError)) <= left.
Proof.
  induction left as [|left IH]; intros attempt lastError;
    [unfold tries; simpl; lia|].
  destruct (fn attempt) as [a|e] eqn:F.
  - unfold loop. cbn [retry_loop]. rewrite F. unfold tries. simpl. lia.
  - rewrite (loop_step_rejected _ _ _ _ F). cbn [fst].
    change (Tried attempt :: ?p ++ ?r) with ([Tried attempt] ++ p ++ r).
    rewrite !tries_app. specialize (IH (S attempt) (Some e)).
    change (tries [Tried (E := E) attempt]) with 1.
    destruct (Z.ltb _ _); [rewrite (proj1 (pause_counts attempt e))|];
      simpl; lia.
Qed.

Let run := withRetry fn maxRetries retryDelay exponentialBackoff onRetry.

(** X24: when the first [k] calls fail and call [k] succeeds, with
    [k <= maxRetries], [withRetry] returns that call's value after exactly
    [k + 1] calls, having slept [retryDelay * (2^k - 1)] milliseconds in all
    with exponential backoff and [retryDelay * k] without. *)
Theorem retry_returns_first_success (k : nat) (a : A) :
  (forall j, j < k -> exists e, fn j = Rejects e) ->
  fn k = Resolves a ->
  (Z.of_nat k <= maxRetries)%Z ->
  snd run = Returned a
  /\ tries (fst run) = k + 1
  /\ slept (fst run)
     = (if exponentialBackoff
        then retryDelay * (2 ^ Z.of_nat k - 1)
        else retryDelay * Z.of_nat k)%Z.
Proof.
  intros Rj Rs Le.
  destruct (loop_until_success k (Z.to_nat (maxRetries + 1)) 0 None a)
    as (R & T & S'); try assumption; try lia.
  - intros j Hj. apply Rj. lia.
  - unfold run, withRetry. fold loop. now rewrite S'.
Qed.

(** X25: when every call fails, [withRetry] gives up after exactly
    [maxRetries + 1] calls and throws the error of the last one; it does not
    sleep after the last call, so the pauses add up to
    [retryDelay * (2^maxRetries - 1)] milliseconds with exponential backoff
    and to [retryDelay * maxRetries] without. *)
Theorem retry_gives_up_with_last_error (last : E) :
  (0 <= maxRetries)%Z ->
  (forall j, (Z.of_nat j <= maxRetries)%Z -> exists e, fn j = Rejects e) ->
  fn (Z.to_nat maxRetries) = Rejects last ->
  snd run = Thrown (Some last)
  /\ tries (fst run) = Z.to_nat maxRetries + 1
  /\ slept (fst run)
     = (if exponentialBackoff
        then retryDelay * (2 ^ maxRetries - 1)
        else retryDelay * maxRetries)%Z.
Proof.
  intros Pos Rj Rl.
  unfold run, withRetry. fold loop.
  replace (Z.to_nat (maxRetries + 1)) with (S (Z.to_nat maxRetries)) by lia.
  destruct (loop_all_rejected (Z.to_nat maxRetries) 0 None last)
    as (R & T & S'); try assumption; try lia.
  - intros j Hj. apply Rj. lia.
  - split; [exact R|]. split; [lia|]. rewrite S'. simpl Z.of_nat.
    rewrite Z2Nat.id by lia. destruct exponentialBackoff; lia.
Qed.

(** X26: [withRetry] never calls the function more than [maxRetries + 1]
    times; with a negative [maxRetries] it does not call it at all and throws
    [undefined]. *)
Theorem retry_is_bounded :
  tries (fst run) <= Z.to_nat (maxRetries + 1)
  /\ ((maxRetries < 0)%Z -> run = ([], Thrown None)).
Proof.
  split.
  - apply loop_tries_bound.
  - intros Neg. unfold run, withRetry.
    replace (Z.to_nat (maxRetries + 1)) with 0 by lia. reflexivity.
Qed.

End Retry_properties.

(** X27: a request is let in exactly when a key is configured, is not empty
    and is the very string the request carries: with no key configured (or an
    empty one) every request is refused, an empty header included. *)
Theorem validateApiKey_spec (header configured : option string) :
  validateApiKey header configured = true
  <-> exists key, key <> EmptyString /\ header = Some key
                  /\ configured = Some key.
Proof.
  unfold validateApiKey. split.
  - destruct configured as [[|c v]|]; try discriminate.
    destruct header as [[|h k]|]; try discriminate.
    intros H. apply String.eqb_eq in H. exists (String h k).
    split; [discriminate|]. split; congruence.
  - intros (key & NE & -> & ->). destruct key as [|c k]; [congruence|].
    apply String.eqb_refl.
Qed.

Lemma breaker_counts_all_failures_witness :
  state (fold_left use_breaker two_failures_apart (new_CircuitBreaker 3 60000))
  = closed
  /\ failures (fold_left use_breaker two_failures_apart
                 (new_CircuitBreaker 3 60000))
     = 2%Z
  /\ (2%Z = (3 - 1)%Z ->
      CircuitBreaker_execute
        (fold_left use_breaker two_failures_apart (new_CircuitBreaker 3 60000))
        30 (Rejects (A := string) "timeout") 35
      = ({| failures := 3; lastFailureTime := 35; state := open;
            threshold := 3; timeout := 60000 |},
         Ran (Rejects "timeout"))).
Proof.
  apply (breaker_counts_all_failures string string 3 60000 two_failures_apart
           30 35 "timeout"); [reflexivity | simpl; lia].
Defined.

Lemma open_breaker_refuses_then_recovers_witness :
  CircuitBreaker_execute tripped 2000 (Resolves (E := string) "ok") 2001
  = (tripped, Unavailable)
  /\ CircuitBreaker_execute tripped 70000 (Resolves (E := string) "ok") 70001
     = (CircuitBreaker_reset tripped, Ran (Resolves "ok")).
Proof.
  split.
  - apply (proj1 (open_breaker_refuses_then_recovers string string tripped
                    2000 2001 (Resolves "ok") eq_refl)).
    simpl. lia.
  - apply (proj2 (open_breaker_refuses_then_recovers string string tripped
                    70000 70001 (Resolves "ok") eq_refl));
      [simpl; lia | reflexivity].
Defined.

Lemma retry_returns_first_success_witness :
  snd (withRetry flaky 3 1000 true true) = Returned "ok"
  /\ tries (fst (withRetry flaky 3 1000 true true)) = 3
  /\ slept (fst (withRetry flaky 3 1000 true true)) = 3000%Z.
Proof.
  apply (retry_returns_first_success string string flaky 3 1000 true true 2
           "ok").
  - intros j Hj. exists "timeout". unfold flaky.
    destruct (Nat.ltb_spec j 2); [reflexivity | lia].
  - reflexivity.
  - lia.
Defined.

Lemma retry_gives_up_with_last_error_witness :
  snd (withRetry hopeless 3 1000 true false) = Thrown (Some "timeout")
  /\ tries (fst (withRetry hopeless 3 1000 true false)) = 4
  /\ slept (fst (withRetry hopeless 3 1000 true false)) = 7000%Z.
Proof.
  apply (retry_gives_up_with_last_error string string hopeless 3 1000 true
           false "timeout").
  - lia.
  - intros j _. exists "timeout". reflexivity.
  - reflexivity.
Defined.

Example retry_events :
  withRetry flaky 3 1000 true true
  = ([Tried 0; Notified 1 "timeout"; Slept 1000;
      Tried 1; Notified 2 "timeout"; Slept 2000; Tried 2],
     Returned "ok").
Proof. reflexivity. Qed.

(** ** Text chunking: strings *)

Lemma prefix_length (p s : string) :
  String.prefix p s = true -> String.length p <= String.length s.
Proof.
  revert s. induction p as [|c p IH]; intros s H; simpl; [lia|].
  destruct s as [|d s]; [discriminate|]. simpl in H.
  destruct (ascii_dec c d); [|discriminate]. apply IH in H. simpl. lia.
Qed.

Lemma substring_length (s : string) (n m : nat) :
  n + m <= String.length s ->
  String.length (String.substring n m s) = m.
Proof.
  revert n m. induction s as [|c s IH]; intros n m H; simpl in H.
  - assert (n = 0) by lia. assert (m = 0) by lia. subst. reflexivity.
  - destruct n as [|n]; destruct m as [|m]; simpl; try reflexivity.
    + rewrite IH; [reflexivity | simpl; lia].
    + apply IH. lia.
    + apply IH. lia.
Qed.

Lemma len_substring (s : string) (a b : Z) :
  (0 <= a <= b)%Z -> (b <= len s)%Z -> len (substring s a b) = (b - a)%Z.
Proof.
  intros Hab Hb. unfold substring.
  replace (Z.max 0 (Z.min a (len s))) with a by lia.
  replace (Z.max 0 (Z.min b (len s))) with b by lia.
  rewrite Z.min_l, Z.max_r by lia. unfold len in *.
  rewrite substring_length; lia.
Qed.

Lemma trimStart_length (s : string) :
  String.length (trimStart s) <= String.length s.
Proof.
  induction s as [|c s IH]; simpl; [lia|].
  destruct (is_space c); simpl; lia.
Qed.

Lemma trimEnd_length (s : string) :
  String.length (trimEnd s) <= String.length s.
Proof.
  induction s as [|c s IH]; simpl; [lia|].
  destruct (trimEnd s); [destruct (is_space c)|]; simpl in *; lia.
Qed.

Lemma len_trim (s : string) : (len (trim s) <= len s)%Z.
Proof.
  unfold len, trim. pose proof (trimEnd_length (trimStart s)).
  pose proof (trimStart_length s). lia.
Qed.

Lemma trimEnd_idempotent (s : string) : trimEnd (trimEnd s) = trimEnd s.
Proof.
  induction s as [|c s IH]; [reflexivity|].
  simpl. destruct (trimEnd s) as [|d t] eqn:T.
  - destruct (is_space c) eqn:Sc; [reflexivity|]. simpl. now rewrite Sc.
  - change (trimEnd (String c (String d t)))
      with (match trimEnd (String d t) with
            | EmptyString => if is_space c then EmptyString
                             else String c EmptyString
            | trimmed => String c trimmed
            end).
    now rewrite IH.
Qed.

Lemma trimStart_clean (s : string) : starts_clean (trimStart s) = true.
Proof.
  induction s as [|c s IH]; [reflexivity|]. simpl.
  destruct (is_space c) eqn:Sc; [exact IH | simpl; now rewrite Sc].
Qed.

Lemma trimEnd_keeps_clean (s : string) :
  starts_clean s = true -> starts_clean (trimEnd s) = true.
Proof.
  destruct s as [|c s]; [reflexivity|]. simpl. intros C.
  destruct (trimEnd s); [|exact C].
  apply negb_true_iff in C. rewrite C. simpl. now rewrite C.
Qed.

Lemma trimStart_of_clean (s : string) :
  starts_clean s = true -> trimStart s = s.
Proof.
  destruct s as [|c s]; [reflexivity|]. simpl. intros C.
  apply negb_true_iff in C. now rewrite C.
Qed.

Lemma trim_idempotent (s : string) : trim (trim s) = trim s.
Proof.
  unfold trim.
  rewrite (trimStart_of_clean (trimEnd (trimStart s))).
  - apply trimEnd_idempotent.
  - apply trimEnd_keeps_clean, trimStart_clean.
Qed.

Lemma lastIndexOf_from_bounds (s pattern : string) :
  forall i, (0 <= i)%Z ->
  lastIndexOf_from s pattern i = (-1)%Z
  \/ (i <= lastIndexOf_from s pattern i
      /\ lastIndexOf_from s pattern i - i + len pattern <= len s)%Z.
Proof.
  induction s as [|c s IH]; intros i Hi.
  - cbn [lastIndexOf_from].
    destruct (String.prefix pattern "") eqn:P; [|now left].
    right. apply prefix_length in P. unfold len. simpl in *. lia.
  - cbn [lastIndexOf_from].
    destruct (Z.leb_spec 0 (lastIndexOf_from s pattern (i + 1))) as [L|L].
    + right. destruct (IH (i + 1)%Z) as [E|[E1 E2]]; [lia | lia |].
      unfold len in *. simpl String.length. lia.
    + destruct (String.prefix pattern (String c s)) eqn:P; [|now left].
      right. apply prefix_length in P. unfold len. lia.
Qed.

Lemma lastIndexOf_from_found (s pattern : string) :
  includes s pattern = true ->
  forall i, (0 <= i)%Z -> (0 <= lastIndexOf_from s pattern i)%Z.
Proof.
  induction s as [|c s IH]; intros H i Hi.
  - cbn [lastIndexOf_from includes] in *. rewrite orb_false_r in H.
    now rewrite H.
  - cbn [lastIndexOf_from includes] in *.
    destruct (Z.leb_spec 0 (lastIndexOf_from s pattern (i + 1))) as [L|L];
      [exact L|].
    destruct (String.prefix pattern (String c s)); [exact Hi|].
    simpl in H. specialize (IH H (i + 1)%Z). lia.
Qed.

Lemma lastIndexOf_bounds (s pattern : string) :
  includes s pattern = true ->
  (0 <= lastIndexOf s pattern
   /\ lastIndexOf s pattern + len pattern <= len s)%Z.
Proof.
  intros H. unfold lastIndexOf.
  pose proof (lastIndexOf_from_found s pattern H 0%Z) as F.
  destruct (lastIndexOf_from_bounds s pattern 0%Z) as [E|[E1 E2]]; lia.
Qed.

Lemma includes_later (c : ascii) (s pattern : string) :
  includes s pattern = true -> includes (String c s) pattern = true.
Proof. intros H. cbn [includes]. rewrite H. apply orb_true_r. Qed.

Lemma sentence_ends_occur (s : string) :
  forall skip m,
    In m (sentence_ends_from s skip) ->
    includes s m = true /\ len m = 2%Z.
Proof.
  induction s as [|c s IH]; intros skip m H; [destruct H|].
  cbn [sentence_ends_from] in H. destruct skip.
  - destruct (IH false m H) as [I L]. split; [now apply includes_later | exact L].
  - destruct s as [|d s']; [destruct H|].
    destruct (is_sentence_end c && is_space d).
    + destruct H as [<-|H].
      * split; [|reflexivity]. cbn [includes String.prefix].
        destruct (ascii_dec c c); [|contradiction].
        destruct (ascii_dec d d); [|contradiction]. now destruct s'.
      * destruct (IH true m H) as [I L].
        split; [now apply includes_later | exact L].
    + destruct (IH false m H) as [I L].
      split; [now apply includes_later | exact L].
Qed.

(** ** Text chunking: the loop *)

Section Chunking_properties.

Variable cleanText : string.
Variable maxChunkSize : Z.
Variable overlapSize : Z.

Let loop := chunk_loop cleanText maxChunkSize overlapSize.
Let stop := chunk_end cleanText maxChunkSize.

Lemma chunk_end_bounds (startIndex : Z) :
  (1 <= maxChunkSize)%Z ->
  (0 <= startIndex < len cleanText)%Z ->
  (startIndex < stop startIndex <= len cleanText)%Z
  /\ (stop startIndex - startIndex <= maxChunkSize)%Z.
Proof.
  intros M S. unfold stop, chunk_end.
  destruct (Z.ltb_spec (startIndex + maxChunkSize) (len cleanText)) as [L|L];
    [|lia].
  set (searchStart := Z.max (startIndex + maxChunkSize - 100) startIndex).
  rewrite (Z.min_l (startIndex + maxChunkSize)) by lia.
  set (searchText := substring cleanText searchStart
                       (startIndex + maxChunkSize)).
  assert (Ls : len searchText = (startIndex + maxChunkSize - searchStart)%Z).
  { unfold searchText. apply len_substring; unfold searchStart; lia. }
  assert (B : forall pattern,
             includes searchText pattern = true -> (1 <= len pattern)%Z ->
             (startIndex
              < searchStart + lastIndexOf searchText pattern + len pattern
              <= startIndex + maxChunkSize)%Z).
  { intros pattern I P. destruct (lastIndexOf_bounds _ _ I) as [B1 B2].
    unfold searchStart in *. lia. }
  destruct (rev (sentence_ends searchText)) as [|lastMatch others] eqn:R.
  - destruct (includes searchText (line_feed ++ line_feed)) eqn:I2;
      [specialize (B _ I2); change (len (line_feed ++ line_feed)) with 2%Z in B;
       lia|].
    destruct (includes searchText line_feed) eqn:I1;
      [specialize (B _ I1); change (len line_feed) with 1%Z in B; lia|].
    destruct (includes searchText " ") eqn:I0;
      [specialize (B _ I0); change (len " ") with 1%Z in B; lia|].
    lia.
  - assert (I : In lastMatch (sentence_ends searchText)).
    { apply in_rev. rewrite R. now left. }
    destruct (sentence_ends_occur _ _ _ I) as [Io Il].
    specialize (B _ Io). lia.
Qed.

Lemma numbered_cons (first : Z) (c : TextChunk) (rest : list TextChunk) :
  chunkIndex c = first -> numbered_from (first + 1) rest ->
  numbered_from first (c :: rest).
Proof.
  unfold numbered_from. intros C N. cbn [map List.length seq].
  rewrite C, N, <- seq_shift, map_map. f_equal; [lia|].
  apply map_ext. intros i. lia.
Qed.

Lemma loop_numbers (rounds : nat) :
  forall startIndex index chunks out,
    loop rounds startIndex index chunks = Some out ->
    exists new, out = chunks ++ new /\ numbered_from index new.
Proof.
  induction rounds as [|rounds IH]; intros startIndex index chunks out;
    [discriminate|].
  unfold loop. cbn [chunk_loop]. fold loop. fold stop.
  destruct (Z.ltb startIndex (len cleanText)).
  - set (content := trim (substring cleanText startIndex (stop startIndex))).
    destruct (Z.ltb 0 (len content)).
    + destruct (Z.ltb (stop startIndex) (len cleanText)).
      * intros H. apply IH in H as (new & -> & N).
        eexists. split; [now rewrite <- app_assoc|].
        cbn [app]. now apply numbered_cons.
      * intros H. inversion H. eexists. split; [reflexivity|].
        apply numbered_cons; reflexivity.
    + destruct (Z.ltb (stop startIndex) (len cleanText)).
      * intros H. now apply IH in H.
      * intros H. inversion H. exists []. split; [now rewrite app_nil_r|].
        reflexivity.
  - intros H. inversion H. exists []. split; [now rewrite app_nil_r|].
    reflexivity.
Qed.

Lemma loop_windows (rounds : nat) :
  (1 <= maxChunkSize)%Z ->
  forall startIndex index chunks out,
    (0 <= startIndex)%Z ->
    loop rounds startIndex index chunks = Some out ->
    exists new,
      out = chunks ++ new
      /\ Forall (chunk_window cleanText maxChunkSize) new.
Proof.
  intros M. induction rounds as [|rounds IH];
    intros startIndex index chunks out S; [discriminate|].
  unfold loop. cbn [chunk_loop]. fold loop. fold stop.
  destruct (Z.ltb_spec startIndex (len cleanText)) as [L|L].
  - destruct (chunk_end_bounds startIndex M (conj S L)) as [B1 B2].
    set (content := trim (substring cleanText startIndex (stop startIndex))).
    assert (W : (0 < len content)%Z ->
                chunk_window cleanText maxChunkSize
                  {| chunk_content := content; chunkIndex := index;
                     totalChunks := -1; startChar := startIndex;
                     endChar := stop startIndex |}).
    { intros P. unfold chunk_window. cbn.
      split; [intros E; rewrite E in P; unfold len in P; simpl in P; lia|].
      split; [reflexivity|]. lia. }
    destruct (Z.ltb_spec 0 (len content)) as [P|P].
    + destruct (Z.ltb (stop startIndex) (len cleanText)).
      * intros H. apply IH in H as (new & -> & F); [|lia].
        eexists. split; [now rewrite <- app_assoc|].
        cbn [app]. constructor; [now apply W | exact F].
      * intros H. inversion H. eexists. split; [reflexivity|].
        constructor; [now apply W | constructor].
    + destruct (Z.ltb (stop startIndex) (len cleanText)).
      * intros H. apply IH in H; [exact H | lia].
      * intros H. inversion H. exists []. split; [now rewrite app_nil_r|].
        constructor.
  - intros H. inversion H. exists []. split; [now rewrite app_nil_r|].
    constructor.
Qed.

Lemma chunk_loop_ends (rounds : nat) :
  forall startIndex index chunks,
    (len cleanText - startIndex < Z.of_nat rounds)%Z ->
    1 <= rounds ->
    exists out, loop rounds startIndex index chunks = Some out.
Proof.
  induction rounds as [|rounds IH]; intros startIndex index chunks Lt R; [lia|].
  unfold loop. cbn [chunk_loop]. fold loop. fold stop.
  destruct (Z.ltb_spec startIndex (len cleanText)) as [L|L];
    [|eexists; reflexivity].
  destruct (Z.ltb (stop startIndex) (len cleanText));
    [|eexists; reflexivity].
  apply IH; lia.
Qed.

End Chunking_properties.

(** ** Text chunking: the chunks *)

Lemma substring_all (s : string) :
  String.substring 0 (String.length s) s = s.
Proof. induction s as [|c s IH]; simpl; [reflexivity | now rewrite IH]. Qed.

Lemma substring_whole (s : string) : substring s 0 (len s) = s.
Proof.
  unfold substring. unfold len.
  replace (Z.max 0 (Z.min 0 (Z.of_nat (String.length s)))) with 0%Z by lia.
  replace (Z.max 0 (Z.min (Z.of_nat (String.length s))
                      (Z.of_nat (String.length s))))
    with (Z.of_nat (String.length s)) by lia.
  rewrite Z.min_l, Z.max_r by lia.
  rewrite Z.sub_0_r, Nat2Z.id. apply substring_all.
Qed.

Lemma trim_of_clean_start (c : ascii) (s : string) :
  is_space c = false -> trim (String c s) <> EmptyString.
Proof.
  intros C. unfold trim. cbn [trimStart]. rewrite C. cbn [trimEnd].
  destruct (trimEnd s); [rewrite C|]; discriminate.
Qed.

Lemma first_window_not_blank (clean : string) (e : Z) :
  starts_clean clean = true -> clean <> EmptyString ->
  (1 <= e <= len clean)%Z ->
  (0 < len (trim (substring clean 0 e)))%Z.
Proof.
  intros C NE B. destruct clean as [|c s]; [congruence|].
  simpl in C. apply negb_true_iff in C.
  unfold substring.
  replace (Z.max 0 (Z.min 0 (len (String c s)))) with 0%Z by lia.
  replace (Z.max 0 (Z.min e (len (String c s)))) with e by lia.
  rewrite Z.min_l, Z.max_r by lia. rewrite Z.sub_0_r.
  destruct (Z.to_nat e) as [|m] eqn:Em; [lia|].
  cbn [Z.to_nat String.substring].
  pose proof (trim_of_clean_start c (String.substring 0 m s) C) as T.
  destruct (trim (String c (String.substring 0 m s))); [congruence|].
  unfold len. simpl. lia.
Qed.

Lemma map_set_totalChunks (n : Z) (chunks : list TextChunk) :
  map chunkIndex (map (set_totalChunks n) chunks) = map chunkIndex chunks.
Proof. rewrite map_map. now apply map_ext. Qed.

(** X28: whatever the text and the sizes, the chunks come out numbered 0, 1,
    2, ... in order, and each of them carries their number as
    [totalChunks]. *)
Theorem chunks_are_numbered (text : string) (maxChunkSize overlapSize : Z) :
  let chunks := chunkText text maxChunkSize overlapSize in
  map chunkIndex chunks = map Z.of_nat (seq 0 (List.length chunks))
  /\ Forall (fun c => totalChunks c = Z.of_nat (List.length chunks)) chunks.
Proof.
  cbv zeta. unfold chunkText.
  destruct (String.eqb text "" || Z.eqb (len (trim text)) 0);
    [split; [reflexivity | constructor]|].
  destruct (Z.leb (len (trim text)) maxChunkSize);
    [split; [reflexivity | now repeat constructor]|].
  destruct (chunk_loop _ _ _ _ _ _ _) as [chunks|] eqn:L;
    [|split; [reflexivity | constructor]].
  apply loop_numbers in L as (new & -> & N). cbn [app].
  rewrite map_set_totalChunks, length_map. split.
  - rewrite N. now apply map_ext.
  - apply Forall_forall. intros c H. apply in_map_iff in H as (c' & <- & _).
    reflexivity.
Qed.

(** X29: with a chunk size of at least 1, every chunk is a window on the
    trimmed text: its positions lie in the text, the end after the start and
    at most [maxChunkSize] further; its content is the text between them,
    trimmed, and is neither empty nor longer than [maxChunkSize]. *)
Theorem chunks_are_windows (text : string) (maxChunkSize overlapSize : Z)
    (c : TextChunk) :
  (1 <= maxChunkSize)%Z ->
  In c (chunkText text maxChunkSize overlapSize) ->
  chunk_window (trim text) maxChunkSize c
  /\ (len (chunk_content c) <= maxChunkSize)%Z
  /\ trim (chunk_content c) = chunk_content c.
Proof.
  intros M. unfold chunkText.
  destruct (String.eqb text "" || Z.eqb (len (trim text)) 0) eqn:B;
    [intros []|].
  apply orb_false_iff in B as [_ B]. apply Z.eqb_neq in B.
  assert (W : forall c', chunk_window (trim text) maxChunkSize c' ->
              chunk_window (trim text) maxChunkSize c'
              /\ (len (chunk_content c') <= maxChunkSize)%Z
              /\ trim (chunk_content c') = chunk_content c').
  { intros c' Wc. split; [exact Wc|].
    destruct Wc as (NE & Eq & S & En & Sz). split.
    - rewrite Eq. pose proof (len_trim (substring (trim text) (startChar c')
                                          (endChar c'))) as Lt.
      rewrite len_substring in Lt; lia.
    - rewrite Eq. apply trim_idempotent. }
  destruct (Z.leb_spec (len (trim text)) maxChunkSize) as [Le|Gt].
  - intros [<-|[]]. apply W. unfold chunk_window. cbn.
    assert (P : (0 < len (trim text))%Z) by (unfold len in *; lia).
    split; [intros E; rewrite E in P; unfold len in P; simpl in P; lia|].
    split; [now rewrite substring_whole, trim_idempotent|]. lia.
  - destruct (chunk_loop _ _ _ _ _ _ _) as [chunks|] eqn:L; [|intros []].
    apply loop_windows in L as (new & -> & F); [|exact M | lia].
    cbn [app]. intros H. apply in_map_iff in H as (c' & <- & I).
    rewrite Forall_forall in F. specialize (F c' I).
    assert (Wc : chunk_window (trim text) maxChunkSize
                   (set_totalChunks (Z.of_nat (List.length new)) c'))
      by exact F.
    exact (W _ Wc).
Qed.

(** X30: with a chunk size of at least 1, no chunk at all comes out exactly
    when the text is empty or white space only; any other text yields at
    least one chunk, and the loop always comes to an end. *)
Theorem no_chunks_iff_blank (text : string) (maxChunkSize overlapSize : Z) :
  (1 <= maxChunkSize)%Z ->
  (chunkText text maxChunkSize overlapSize = [] <-> trim text = EmptyString).
Proof.
  intros M. unfold chunkText. split.
  - destruct (String.eqb_spec text "") as [->|NE]; [reflexivity|].
    cbn [orb].
    destruct (Z.eqb_spec (len (trim text)) 0) as [Z0|NZ].
    + intros _. destruct (trim text); [reflexivity|].
      unfold len in Z0. simpl in Z0. lia.
    + destruct (Z.leb_spec (len (trim text)) maxChunkSize) as [Le|Gt];
        [discriminate|].
      intros H. exfalso.
      assert (Cl : starts_clean (trim text) = true)
        by apply trimEnd_keeps_clean, trimStart_clean.
      assert (NEt : trim text <> EmptyString).
      { intros E. rewrite E in NZ. now apply NZ. }
      assert (P : (0 < len (trim text))%Z) by (unfold len in *; lia).
      destruct (chunk_end_bounds (trim text) maxChunkSize 0 M) as [B1 B2];
        [lia|].
      pose proof (first_window_not_blank (trim text)
                    (chunk_end (trim text) maxChunkSize 0) Cl NEt) as F.
      specialize (F ltac:(lia)).
      revert H. cbn [chunk_loop].
      destruct (Z.ltb_spec 0 (len (trim text))); [|lia].
      destruct (Z.ltb_spec 0 (len (trim (substring (trim text) 0
                                           (chunk_end (trim text)
                                              maxChunkSize 0)))));
        [|lia].
      destruct (Z.ltb (chunk_end (trim text) maxChunkSize 0) (len (trim text))).
      * match goal with
        | |- context [chunk_loop ?t ?m ?o ?r ?s ?i ?cs] =>
            destruct (chunk_loop_ends t m o r s i cs) as [out Ho];
            [unfold len in *; lia | unfold len in *; lia |];
            unfold chunk_loop in Ho |- *; fold chunk_loop in Ho |- *;
            rewrite Ho;
            apply (loop_numbers t m o) in Ho as (new & -> & _)
        end.
        discriminate.
      * discriminate.
  - intros E. rewrite E. destruct (String.eqb text ""); reflexivity.
Qed.

Lemma chunks_are_windows_witness :
  chunk_window (trim sample_text) 40
    {| chunk_content := "Odoo stores partners in res.partner.";
       chunkIndex := 0; totalChunks := 2; startChar := 0; endChar := 37 |}
  /\ (len "Odoo stores partners in res.partner." <= 40)%Z
  /\ trim "Odoo stores partners in res.partner."
     = "Odoo stores partners in res.partner.".
Proof.
  apply (chunks_are_windows sample_text 40 5
           {| chunk_content := "Odoo stores partners in res.partner.";
              chunkIndex := 0; totalChunks := 2; startChar := 0;
              endChar := 37 |}).
  - lia.
  - vm_compute. left. reflexivity.
Defined.

Lemma no_chunks_iff_blank_witness :
  chunkText "   " 40 5 = [] <-> trim "   " = EmptyString.
Proof. apply (no_chunks_iff_blank "   " 40 5). lia. Defined.

Example chunkText_runs :
  chunkText sample_text 40 5
  = [{| chunk_content := "Odoo stores partners in res.partner.";
        chunkIndex := 0; totalChunks := 2; startChar := 0; endChar := 37 |};
     {| chunk_content := "ner. Products live in product.product.";
        chunkIndex := 1; totalChunks := 2; startChar := 32; endChar := 70 |}].
Proof. vm_compute. reflexivity. Qed.
